(** * FiftyOne client state layer: selectors, polling socket, scrubber handle

    A shallow embedding of [app/state/selectors.ts] (the recoil selector
    graph and the [HTTPSSocket] long-polling shim) and of the gesture
    handler of [components/Flashlight/Scrubber/Indicator.tsx].

    Conventions of the embedding:
    - a JavaScript number is the exact rational value ([Qc]) of a binary64
      float. The additions and subtractions of the selectors round their
      exact result to binary64, to nearest with ties to even ([round64]),
      and a decimal literal of the source is the binary64 value nearest to
      it ([dec]); comparisons are exact. NaN and the infinities, which JSON
      data cannot carry, are not modelled, and negative zero, which every
      operation used here treats as zero, is identified with zero. The
      gesture handler subtracts 16 and 35 from pixel coordinates, which is
      exact for them, and is kept in exact arithmetic;
    - [null] and [undefined] are kept apart wherever the source tells them
      apart ([maybe_num], [bound], [filter_value]);
    - a JavaScript object used as a dictionary is the [gmap string _] of
      its own properties; where the source reads a property that may be
      inherited from [Object.prototype] (the setter of [filterStage]) the
      inherited members are written out ([read_property]);
    - the filters kept in the state description have the shape that
      [resolveFilter] gives them;
    - a recoil selector is a function of the atom store, a selector setter
      is a store transformer; a selector whose getter throws is [None]. *)

From Stdlib Require Import Ascii QArith Qcanon Qabs Qround Qpower Lqa.
From stdpp Require Import base option numbers list strings gmap sorting.

Local Open Scope Z_scope.

(** ** JavaScript values and operators used by the sources *)
Module JS.

(** The number [n/d]. *)
Definition num (n : Z) (d : positive) : Qc := Q2Qc (n # d).

(** *** binary64

    The integer nearest to [q], ties to even. *)
Definition round_half_even (q : Q) : Z :=
  let f := Qfloor q in
  match (q - inject_Z f ?= 1 # 2)%Q with
  | Lt => f
  | Gt => f + 1
  | Eq => if Z.even f then f else f + 1
  end.

(** The integer [l] with [2^l <= q < 2^(l+1)], for [q > 0]. *)
Definition ilog2 (q : Q) : Z :=
  let d := Z.log2 (Qnum q) - Z.log2 (Zpos (Qden q)) in
  if Qle_bool (2 ^ d) q then d else d - 1.

(** The binary64 value nearest to [q > 0]: a significand of 53 bits at
    the exponent of [q], or a multiple of 2^-1074 below 2^-1022. *)
Definition round64_pos (q : Q) : Q :=
  let e := Z.max (ilog2 q - 52) (-1074) in
  (inject_Z (round_half_even (q / 2 ^ e)) * 2 ^ e)%Q.

(** Rounding to binary64, to nearest, ties to even: a binary64 value
    than which no other is nearer ([round64_nearest]). Nothing below
    overflows: the sources add or subtract 0.005 or 0.01 and parse
    decimals with two fraction digits. *)
Definition round64 (x : Qc) : Qc :=
  match (x ?= 0)%Qc with
  | Eq => 0%Qc
  | Gt => Q2Qc (round64_pos x)
  | Lt => (- Q2Qc (round64_pos (- x)))%Qc
  end.

(** The finite binary64 values, overflow left aside: [m * 2^e] with a
    significand below 2^53 in magnitude and an exponent from -1074 on. *)
Definition binary64 (q : Q) : Prop :=
  ∃ m e : Z, Z.abs m < 2 ^ 53 ∧ -1074 ≤ e ∧ (q == inject_Z m * 2 ^ e)%Q.

(** The decimal literal [n/d] of the source text. *)
Definition dec (n : Z) (d : positive) : Qc := round64 (num n d).

(** [a + b] and [a - b] on numbers. *)
Definition add64 (a b : Qc) : Qc := round64 (a + b).
Definition sub64 (a b : Qc) : Qc := round64 (a - b).

(** A property that holds a number, holds [null], or is missing. *)
Inductive maybe_num :=
| Undefined
| Null
| Num (q : Qc).

(** An element of a bounds or range pair: [None] is [null]. *)
Definition bound := option Qc.


Definition bound_ToNumber (b : bound) : Qc := default 0%Qc b.


(** [a < b] with a number on the left and a bound on the right. *)
Definition lt_bound (a : Qc) (b : bound) : bool :=
  bool_decide (a < bound_ToNumber b)%Qc.

Definition Math_min (a b : Qc) : Qc := if decide (a ≤ b)%Qc then a else b.
Definition Math_max (a b : Qc) : Qc := if decide (a ≤ b)%Qc then b else a.

(** [Number(x.toFixed(2))]. toFixed formats the magnitude of the exact
    value of [x] with two fraction digits, picking the larger candidate on
    a tie, and Number reads the decimal back as the nearest binary64
    value. From 10^21 on toFixed prints the number as ToString does, and
    Number reads [x] back. *)
Definition toFixed2 (x : Qc) : Qc :=
  if bool_decide (num (10 ^ 21) 1 ≤ x)%Qc || bool_decide (x ≤ num (- 10 ^ 21) 1)%Qc
  then x
  else
    let n := Qfloor (100 * Qabs x + (1 # 2))%Q in
    round64 (if decide (x < 0)%Qc then Q2Qc ((- n) # 100) else Q2Qc (n # 100)).

(** [s.split(sep)] for a one-character separator: never empty. *)
Fixpoint split (sep : ascii) (s : string) : list string :=
  match s with
  | EmptyString => [EmptyString]
  | String c s' =>
      if decide (c = sep) then EmptyString :: split sep s'
      else match split sep s' with
           | h :: t => String c h :: t
           | [] => [String c EmptyString]
           end
  end.



(** [l.join(sep)] for a one-character separator. *)
Fixpoint join (sep : ascii) (l : list string) : string :=
  match l with
  | [] => EmptyString
  | [x] => x
  | x :: l' => x +:+ String sep (join sep l')
  end.

(** [c] is what follows the last [sep] of [t], or all of [t] when [t]
    holds no [sep]. *)
Definition final_component (sep : ascii) (t c : string) : Prop :=
  (sep ∉ String.list_ascii_of_string c)
  ∧ (t = c ∨ ∃ p, t = p +:+ String sep c).


(** [a < b] on two bounds: [null] counts as 0. *)
Definition bound_lt (a b : bound) : bool :=
  bool_decide (bound_ToNumber a < bound_ToNumber b)%Qc.

(** The function-valued members of [Object.prototype]; [__proto__], its
    accessor, is told apart where it is read. *)
Definition Object_prototype_methods : list string :=
  ["constructor"; "hasOwnProperty"; "isPrototypeOf"; "propertyIsEnumerable";
   "toLocaleString"; "toString"; "valueOf"; "__defineGetter__";
   "__defineSetter__"; "__lookupGetter__"; "__lookupSetter__"].

(** [l.reduce((acc, cur, i) => f(acc, cur, i), init)], the index starting
    at [i]. *)
Fixpoint reduce_from {A B} (f : B → A → nat → B) (i : nat) (acc : B)
    (l : list A) : B :=
  match l with
  | [] => acc
  | x :: l' => reduce_from f (S i) (f acc x i) l'
  end.

End JS.

(** ** Indicator.tsx: the scrubber handle *)
Module Indicator.
Import JS.

(** The spring created by [useSpring(() => ({ y: 0 }))]. *)
Record spring := { y : Qc }.

Definition initial : spring := {| y := 0%Qc |}.

(** [gestureHandler({ xy: [_, py], dragging })], with [mainSizeValue]
    the [width, height] pair read from the [mainSize] atom; [set]
    replaces the spring's [y]. *)
Definition gestureHandler (mainSizeValue : Qc * Qc) (xy : Qc * Qc)
    (dragging : bool) (_ : spring) : spring :=
  let py := xy.2 in
  let newY :=
    Math_min (mainSizeValue.2 - num 35 1)%Qc
             (Math_max (py - num 16 1)%Qc 0%Qc) in
  {| y := newY |}.

End Indicator.

(** ** HTTPSSocket: the long-polling stand-in for a WebSocket *)
Module HTTPSSocket.

(** [WebSocket.CONNECTING], [OPEN], [CLOSING], [CLOSED]. *)
Inductive ready_state := CONNECTING | OPEN | CLOSING | CLOSED.

#[global] Instance ready_state_eq_dec : EqDecision ready_state.
Proof. solve_decision. Defined.

(** What the object does to the outside world. *)
Inductive effect :=
| Emit (eventType : string)
| ClearInterval (ms : Z)
| SetInterval (ms : Z)
| Fetch (url : string) (body : option string).

(** The fields of the class. [events] keeps the event types that have
    a handler set; [interval] identifies the armed timer by its period
    ([0] while no timer was armed yet); [trace] lists the effects so far,
    oldest first. Handlers are taken to return normally and not to call
    back into the socket. *)
Record t := {
  location : string;
  events : gset string;
  readyState : ready_state;
  openTimeout : Z;
  timeout : Z;
  interval : Z;
  trace : list effect
}.

Definition do (e : effect) (s : t) : t :=
  {| location := location s; events := events s;
     readyState := readyState s; openTimeout := openTimeout s;
     timeout := timeout s; interval := interval s;
     trace := trace s ++ [e] |}.

Definition set_readyState (r : ready_state) (s : t) : t :=
  {| location := location s; events := events s;
     readyState := r; openTimeout := openTimeout s;
     timeout := timeout s; interval := interval s; trace := trace s |}.

Definition set_timeout (ms : Z) (s : t) : t :=
  {| location := location s; events := events s;
     readyState := readyState s; openTimeout := openTimeout s;
     timeout := ms; interval := interval s; trace := trace s |}.

Definition set_events (ev : gset string) (s : t) : t :=
  {| location := location s; events := ev;
     readyState := readyState s; openTimeout := openTimeout s;
     timeout := timeout s; interval := interval s; trace := trace s |}.

(** [clearInterval(this.interval)]. *)
Definition clearInterval (s : t) : t := do (ClearInterval (interval s)) s.

(** [this.interval = setInterval(() => this.gather(), this.timeout)]. *)
Definition setInterval (s : t) : t :=
  do (SetInterval (timeout s))
     {| location := location s; events := events s;
        readyState := readyState s; openTimeout := openTimeout s;
        timeout := timeout s; interval := timeout s; trace := trace s |}.

(** [gather()] up to the point where the request is in flight. *)
Definition gather (s : t) : t := do (Fetch (location s) None) s.

(** [new HTTPSSocket(location)]: field initialisers, then [connect()]. *)
Definition new (loc : string) : t :=
  setInterval (gather
    {| location := loc; events := ∅; readyState := CONNECTING;
       openTimeout := 2000; timeout := 2000; interval := 0; trace := [] |}).

(** A method body either runs to its end or throws part-way. *)
Inductive outcome :=
| Done (s : t)
| Threw (s : t).

(** [execute(messages)]. [messages] is [None] when the value is not an
    array, so [messages.forEach] throws; [this.events.open.forEach]
    throws when no open handler was ever added. *)
Definition execute (messages : option (list string)) (s : t) : outcome :=
  let opened :=
    if bool_decide (readyState s ∈ [CLOSED; CONNECTING]) then
      if bool_decide ("open" ∈ events s) then
        Done (setInterval (clearInterval
                (set_timeout (openTimeout s) (do (Emit "open") s))))
      else Threw s
    else Done s in
  match opened with
  | Threw s1 => Threw s1
  | Done s1 =>
      let s2 := set_readyState OPEN s1 in
      match messages with
      | None => Threw s2
      | Some ms =>
          Done (foldl (λ acc m,
                  do (Fetch (location acc +:+ "&mode=pull") (Some m)) acc)
                s2 ms)
      end
  end.

(** The [.catch] callback of [gather]. *)
Definition gather_catch (s : t) : t :=
  let s1 :=
    if bool_decide (readyState s = OPEN) && bool_decide ("close" ∈ events s)
    then do (Emit "close") s else s in
  let s2 := clearInterval (set_readyState CLOSED s1) in
  setInterval (set_timeout (Z.min (timeout s2 * 2) 5000) s2).

(** How the request of a [gather] settles: [fetch] or [json()] rejects,
    or the body is [null] and cannot be destructured, or the body arrives
    and [execute] runs on its [messages]. *)
Inductive response :=
| Rejected
| Resolved (messages : option (list string)).

Definition gather_settled (r : response) (s : t) : t :=
  match r with
  | Rejected => gather_catch s
  | Resolved messages =>
      match execute messages s with
      | Done s' => s'
      | Threw s' => gather_catch s'
      end
  end.

(** [this.events.message.forEach(...)]: throws, without any effect, when
    no message handler was ever added. *)
Definition dispatch_message (s : t) : t :=
  if bool_decide ("message" ∈ events s) then do (Emit "message") s else s.

(** The reply of [send]: [messages] is [None] when falsy; [type] tells
    whether the reply itself is dispatched to the message handlers. A
    throw in [execute] is an unhandled rejection: the rest is skipped. *)
Definition send_settled (messages : option (option (list string)))
    (type : bool) (s : t) : t :=
  let after :=
    match messages with
    | None => Done s
    | Some ms => execute ms s
    end in
  match after with
  | Threw s' => s'
  | Done s' => if type then dispatch_message s' else s'
  end.

Definition addEventListener (eventType : string) (s : t) : t :=
  set_events ({[eventType]} ∪ events s) s.

(** Everything that can happen to a socket after its construction. *)
Inductive event :=
| Tick
| GatherSettled (r : response)
| Send (message : string)
| SendSettled (messages : option (option (list string))) (type : bool)
| PullSettled
| AddEventListener (eventType : string)
| RemoveEventListener (eventType : string).

Definition step (s : t) (e : event) : t :=
  match e with
  | Tick => gather s
  | GatherSettled r => gather_settled r s
  | Send message => do (Fetch (location s +:+ "&mode=push") (Some message)) s
  | SendSettled messages type => send_settled messages type s
  | PullSettled => dispatch_message s
  | AddEventListener eventType => addEventListener eventType s
  | RemoveEventListener _ => s
  end.

Definition run (es : list event) (s : t) : t := foldl step s es.

(** The period handed to the most recent [setInterval]. *)
Definition scheduled (s : t) : option Z :=
  last (omap (λ e, match e with SetInterval ms => Some ms | _ => None end)
             (trace s)).

(** The invariant carried by every step. *)
Definition timeout_ok (s : t) : Prop :=
  openTimeout s = 2000 ∧ 2000 ≤ timeout s ≤ 5000.

(** Interval timers armed and not cleared since. *)
Definition live_timers (s : t) : Z :=
  foldl (λ n e,
           match e with
           | SetInterval _ => n + 1
           | ClearInterval _ => n - 1
           | _ => n
           end) 0 (trace s).

(** Replays the timer calls of a trace: [Some (Some ms)] while exactly
    one timer is running, armed with the period [ms]; [Some None] while
    none is; [None] from the moment a timer is armed while another is
    still running, or a call clears something else than the running
    timer. *)
Definition arm (st : option (option Z)) (e : effect) : option (option Z) :=
  match e with
  | SetInterval ms =>
      st ≫= λ running,
        match running with None => Some (Some ms) | Some _ => None end
  | ClearInterval ms =>
      st ≫= λ running,
        match running with
        | Some ms' => if bool_decide (ms' = ms) then Some None else None
        | None => None
        end
  | _ => st
  end.

Definition armed (s : t) : option (option Z) := foldl arm (Some None) (trace s).

(** Reads the open and close notifications of a trace from left to
    right: [Some true] while the last one was an open, [Some false] before
    the first open and after a close, [None] as soon as a close comes
    with no open since the previous close. *)
Definition track (st : option bool) (e : effect) : option bool :=
  match e with
  | Emit eventType =>
      if bool_decide (eventType = "open") then st ≫= λ _, Some true
      else if bool_decide (eventType = "close") then
        st ≫= λ opened, if opened : bool then Some false else None
      else st
  | _ => st
  end.

Definition announced (s : t) : option bool := foldl track (Some false) (trace s).

(** Invariants of a socket, each kept by every step. *)
Definition timers_ok (s : t) : Prop :=
  live_timers s = 1 ∧ interval s = timeout s ∧ scheduled s = Some (timeout s)
  ∧ armed s = Some (Some (timeout s)).

Definition open_ok (s : t) : Prop :=
  openTimeout s = 2000 ∧ readyState s ≠ CLOSING
  ∧ (readyState s = OPEN → timeout s = 2000).

Definition announced_ok (s : t) : Prop :=
  ∃ opened, announced s = Some opened ∧ (readyState s = OPEN → opened = true).

End HTTPSSocket.

(** ** selectors.ts: the atom store and the selector graph *)
Module Selectors.
Import JS.

(** [Object.keys(o)]: the enumeration order is left open by the map. *)
Definition Object_keys {A} (o : gmap string A) : list string :=
  (map_to_list o).*1.

(** *** Shapes of the data held by the atoms *)

(** An entry of [dataset.sample_fields] / [dataset.frame_fields]. *)
Module Field.
Record t := {
  name : string;
  ftype : string;
  embedded_doc_type : option string
}.
End Field.

Module Dataset.
Record t := {
  name : string;
  media_type : string;
  sample_fields : option (list Field.t);
  frame_fields : option (list Field.t)
}.
End Dataset.

(** An entry of the stats lists; [count] is [Undefined] on entries that
    carry no count. *)
Module Stat.
Record t := {
  name : string;
  _CLS : string;
  count : maybe_num;
  bounds : bound * bound
}.
End Stat.

(** A filter object as [resolveFilter] builds it: each property may be
    absent, and properties are kept in the order range, none, labels. *)
Module Filter.
Record t := {
  range : option (bound * bound);
  none : option bool;
  labels : option (list string)
}.

(** [{}] *)
Definition empty : t := {| range := None; none := None; labels := None |}.

(** [Object.keys(filter).length] *)
Definition size (f : t) : nat :=
  let has {A} (p : option A) := match p with Some _ => 1%nat | None => 0%nat end in
  (has (range f) + has (none f) + has (labels f))%nat.
End Filter.

(** What [filterStage] stores or is given: [null] or a filter object. *)
Inductive filter_value :=
| FNull
| FObj (f : Filter.t).

(** [!!v] for a value, and for a property read that may be undefined. *)
Definition truthy (v : filter_value) : bool :=
  match v with FNull => false | FObj _ => true end.

Definition truthy_prop (v : option filter_value) : bool :=
  match v with Some v => truthy v | None => false end.

(** A detection, classification, ... shown in the grid. *)
Module Label.
Record t := {
  confidence : maybe_num;
  label : option string
}.
End Label.

Record StateDescription := {
  dataset : option Dataset.t;
  filters : option (gmap string filter_value);
  view : list string
}.

(** [packageMessage(type, args)] of utils/socket, kept as its arguments. *)
Inductive args :=
| FiltersArgs (filters : gmap string filter_value)
| StateArgs (state : StateDescription).

Record message := packageMessage { type : string; payload : args }.

(** The atoms read or written here, and the messages handed to
    [socket.send] so far. *)
Record store := {
  stateDescription : StateDescription;
  datasetStats : option (list Stat.t);
  extendedDatasetStats : option (list Stat.t);
  datasetStatsLoading : bool;
  extendedDatasetStatsLoading : bool;
  activeLabels : string → gmap string bool;
  sent : list message
}.

(** *** JSON.stringify on filter values

    The text is kept as its token sequence; number and string literals
    are single tokens. *)
Inductive token :=
| TLBrace | TRBrace | TLBrack | TRBrack | TColon | TComma
| TNull | TTrue | TFalse
| TNumber (q : Qc)
| TString (s : string).

Fixpoint commas (members : list (list token)) : list token :=
  match members with
  | [] => []
  | [m] => m
  | m :: ms => m ++ TComma :: commas ms
  end.

Definition stringify_bound (b : bound) : token :=
  match b with None => TNull | Some q => TNumber q end.

Definition stringify_bool (b : bool) : token :=
  if b then TTrue else TFalse.

Definition stringify_array (elems : list token) : list token :=
  TLBrack :: commas ((λ e, [e]) <$> elems) ++ [TRBrack].

Definition stringify_filter (f : Filter.t) : list token :=
  let member (key : string) (v : list token) := TString key :: TColon :: v in
  TLBrace :: commas (
    match Filter.range f with
    | Some r => [member "range"
                   (stringify_array [stringify_bound r.1; stringify_bound r.2])]
    | None => []
    end ++
    match Filter.none f with
    | Some b => [member "none" [stringify_bool b]]
    | None => []
    end ++
    match Filter.labels f with
    | Some ls => [member "labels" (stringify_array (TString <$> ls))]
    | None => []
    end) ++ [TRBrace].

(** [JSON.stringify(v)]; [undefined] gives [undefined]. *)
Definition JSON_stringify (v : option filter_value) : option (list token) :=
  match v with
  | None => None
  | Some FNull => Some [TNull]
  | Some (FObj f) => Some (stringify_filter f)
  end.

(** *** Property reads on a plain object

    What [o[k]] finds on an object created by an object literal: an own
    property, else a member of [Object.prototype]. *)
Inductive property :=
| Own (v : filter_value)
| Method
| Prototype
| Missing.

Definition read_property (o : gmap string filter_value) (k : string) : property :=
  match o !! k with
  | Some v => Own v
  | None =>
      if bool_decide (k = "__proto__") then Prototype
      else if bool_decide (k ∈ Object_prototype_methods) then Method
      else Missing
  end.

(** [!!o[k]]: functions and objects are truthy. *)
Definition truthy_property (r : property) : bool :=
  match r with
  | Own v => truthy v
  | Method | Prototype => true
  | Missing => false
  end.

(** [JSON.stringify(o[k])]: [undefined] for a function and for a missing
    property, ["{}"] for [Object.prototype], which has no enumerable
    property. *)
Definition stringify_property (r : property) : option (list token) :=
  match r with
  | Own v => JSON_stringify (Some v)
  | Method | Missing => None
  | Prototype => Some [TLBrace; TRBrace]
  end.

(** [k in o] *)
Definition has_property (r : property) : bool :=
  match r with Missing => false | _ => true end.

#[global] Instance maybe_num_eq_dec : EqDecision maybe_num.
Proof. solve_decision. Defined.
#[global] Instance token_eq_dec : EqDecision token.
Proof. solve_decision. Defined.

(** *** filterStages, filterStage *)
Module filterStages.
Definition get (s : store) : option (gmap string filter_value) :=
  filters (stateDescription s).

Definition set (filters : gmap string filter_value) (s : store) : store :=
  let state :=
    {| dataset := dataset (stateDescription s);
       filters := Some filters;
       view := view (stateDescription s) |} in
  {| stateDescription := state;
     datasetStats := datasetStats s;
     extendedDatasetStats := extendedDatasetStats s;
     datasetStatsLoading := datasetStatsLoading s;
     extendedDatasetStatsLoading := true;
     activeLabels := activeLabels s;
     sent := sent s ++ [packageMessage "filters_update" (FiltersArgs filters)] |}.
End filterStages.

Module filterStage.
(** [get(filterStages)?.[path] ?? {}], as its readers see it through the
    properties range, none and labels: a member of [Object.prototype]
    found at [path] has none of the three, as [{}]. *)
Definition get (path : string) (s : store) : Filter.t :=
  match filterStages.get s ≫= (.!! path) with
  | Some (FObj f) => f
  | Some FNull | None => Filter.empty
  end.

(** [filters] is the copy [Object.assign({}, get(filterStages))]; deleting
    a property that is not an own one does nothing. *)
Definition set (path : string) (value : filter_value) (s : store) : store :=
  let filters : gmap string filter_value := default ∅ (filterStages.get s) in
  let stored := read_property filters path in
  if negb (truthy value) && negb (truthy_property stored) then s
  else if bool_decide (JSON_stringify (Some value) = stringify_property stored)
  then s
  else if negb (truthy value) && has_property stored
  then filterStages.set (delete path filters) s
  else filterStages.set (<[path:=value]> filters) s.
End filterStage.

(** *** Counts *)
Definition totalCount (s : store) : maybe_num :=
  let stats := default [] (datasetStats s) in
  foldl (λ acc cur,
           if bool_decide (Stat.name cur = "count") then Stat.count cur else acc)
        Null stats.

Definition filteredCount (s : store) : maybe_num :=
  let stats := default [] (extendedDatasetStats s) in
  foldl (λ acc cur,
           if bool_decide (Stat.name cur = "count") then Stat.count cur else acc)
        Null stats.


(** [d[dimension + "_fields"] || []] with [d] the dataset or [{}]. *)
Definition fieldSchema (dimension : string) (s : store) : list Field.t :=
  match dataset (stateDescription s) with
  | Some d =>
      let key := dimension +:+ "_fields" in
      default [] (if bool_decide (key = "sample_fields") then Dataset.sample_fields d
                  else if bool_decide (key = "frame_fields") then Dataset.frame_fields d
                  else None)
  | None => []
  end.

Definition fields (dimension : string) (s : store) : gmap string Field.t :=
  foldl (λ acc cur, <[Field.name cur := cur]> acc) ∅ (fieldSchema dimension s).



Section labels_ts.
(** Constants of utils/labels, which this file only imports. *)
Variables VALID_LABEL_TYPES VALID_SCALAR_TYPES : list string.

Definition labelFilter (f : Field.t) : bool :=
  match Field.embedded_doc_type f with
  | None | Some EmptyString => false
  | Some t =>
      match last (split "." t) with
      | Some c => bool_decide (c ∈ VALID_LABEL_TYPES)
      | None => false
      end
  end.

Definition scalarFilter (f : Field.t) : bool :=
  bool_decide (Field.ftype f ∈ VALID_SCALAR_TYPES).

Definition labels (dimension : string) (s : store) : list Field.t :=
  let fieldsValue := fields dimension s in
  filter labelFilter (omap (λ k, fieldsValue !! k) (Object_keys fieldsValue)).

Definition labelNames (dimension : string) (s : store) : list string :=
  Field.name <$> labels dimension s.

Definition scalars (dimension : string) (s : store) : list Field.t :=
  let fieldsValue := fields dimension s in
  filter scalarFilter (omap (λ k, fieldsValue !! k) (Object_keys fieldsValue)).

Definition scalarNames (dimension : string) (s : store) : list string :=
  Field.name <$> scalars dimension s.
End labels_ts.

(** *** Bounds and filters of a label path *)
Definition CONFIDENCE_BOUNDS_CLS : string :=
  "fiftyone.core.aggregations.ConfidenceBoundsResult".

(** Throws when the stats atom holds no list ([.reduce] of a non-array). *)
Definition labelConfidenceBounds (label : string) (s : store)
    : option (bound * bound) :=
  stats ← datasetStats s;
  Some (foldl (λ acc cur,
    if bool_decide (Stat.name cur = label)
       && bool_decide (Stat._CLS cur = CONFIDENCE_BOUNDS_CLS) then
      let bounds := Stat.bounds cur in
      let bounds : bound * bound :=
        (if lt_bound 0%Qc bounds.1 then Some 0%Qc else bounds.1,
         if bool_decide (bound_ToNumber bounds.2 < 1)%Qc then Some 1%Qc
         else bounds.2) in
      (match bounds.1 with
       | Some b0 =>
           if bool_decide (b0 ≠ 0%Qc) then Some (toFixed2 (sub64 b0 (dec 1 100)))
           else bounds.1
       | None => bounds.1
       end,
       match bounds.2 with
       | Some b1 =>
           if bool_decide (b1 ≠ 1%Qc) then Some (toFixed2 (add64 b1 (dec 1 100)))
           else bounds.2
       | None => bounds.2
       end)
    else acc) (None, None) stats).

(** The test of that reducer: [cur] is the confidence bounds of [label]. *)
Definition is_bounds_of (label : string) (cur : Stat.t) : bool :=
  bool_decide (Stat.name cur = label)
  && bool_decide (Stat._CLS cur = CONFIDENCE_BOUNDS_CLS).

Definition resolveFilter (bounds range : bound * bound) (none : bool)
    (labels : option (list string)) : filter_value :=
  let defaultRange :=
    bool_decide (range.1 = bounds.1) && bool_decide (range.2 = bounds.2) in
  let some_labels :=
    match labels with Some ls => bool_decide (0 < length ls)%nat | None => false end in
  if defaultRange && none && negb some_labels then FNull
  else
    let filter := Filter.empty in
    let filter :=
      if negb defaultRange then
        {| Filter.range := Some range; Filter.none := Some none;
           Filter.labels := Filter.labels filter |}
      else filter in
    let filter :=
      if defaultRange && negb none then
        {| Filter.range := Filter.range filter; Filter.none := Some none;
           Filter.labels := Filter.labels filter |}
      else filter in
    let filter :=
      if some_labels then
        {| Filter.range := Filter.range filter; Filter.none := Filter.none filter;
           Filter.labels := labels |}
      else filter in
    if bool_decide (0 < Filter.size filter)%nat then FObj filter else FNull.

(** Getter of [filterIncludeLabels]: [filter?.labels ?? []]. *)
Definition filterIncludeLabels (path : string) (s : store) : list string :=
  default [] (Filter.labels (filterStage.get path s)).

(** Getter of [filterLabelIncludeNoConfidence]: [filter?.none ?? true]. *)
Definition filterLabelIncludeNoConfidence (path : string) (s : store) : bool :=
  default true (Filter.none (filterStage.get path s)).

Module filterLabelConfidenceRange.
Definition get (path : string) (s : store) : option (bound * bound) :=
  match Filter.range (filterStage.get path s) with
  | Some range => Some range
  | None => labelConfidenceBounds path s
  end.

Definition set (path : string) (range : bound * bound) (s : store)
    : option store :=
  bounds ← labelConfidenceBounds path s;
  let none := filterLabelIncludeNoConfidence path s in
  let labels := filterIncludeLabels path s in
  let filter := resolveFilter bounds range none (Some labels) in
  Some (filterStage.set path filter s).
End filterLabelConfidenceRange.

(** *** labelFilters *)




(** *** view *)
Module view.
(** [get(atoms.stateDescription).view || []]; a missing view is kept as
    the empty list in [StateDescription]. *)
Definition get (s : store) : list string := view (stateDescription s).

(** Throws when the state holds no filters object ([Object.keys]). *)
Definition set (stages : list string) (s : store) : option store :=
  let state := stateDescription s in
  let newState :=
    {| dataset := dataset state; filters := filters state; view := stages |} in
  fs ← filters state;
  Some {| stateDescription := newState;
          datasetStats := datasetStats s;
          extendedDatasetStats := extendedDatasetStats s;
          datasetStatsLoading := true;
          extendedDatasetStatsLoading :=
            if bool_decide (length (Object_keys fs) ≠ 0%nat) then true
            else extendedDatasetStatsLoading s;
          activeLabels := activeLabels s;
          sent := sent s ++ [packageMessage "update" (StateArgs newState)] |}.
End view.

(** *** The other setters of a label path *)

(** Setter of [filterIncludeLabels]. *)
Definition filterIncludeLabels_set (path : string) (labels : list string)
    (s : store) : option store :=
  bounds ← labelConfidenceBounds path s;
  range ← filterLabelConfidenceRange.get path s;
  let none := filterLabelIncludeNoConfidence path s in
  let filter := resolveFilter bounds range none (Some labels) in
  Some (filterStage.set path filter s).

(** Setter of [filterLabelIncludeNoConfidence]. *)
Definition filterLabelIncludeNoConfidence_set (path : string) (none : bool)
    (s : store) : option store :=
  range ← filterLabelConfidenceRange.get path s;
  bounds ← labelConfidenceBounds path s;
  let labels := filterIncludeLabels path s in
  let filter := resolveFilter bounds range none (Some labels) in
  Some (filterStage.set path filter s).

Definition BOUNDS_CLS : string := "fiftyone.core.aggregations.BoundsResult".

(** Throws when the stats atom holds no list. *)
Definition numericFieldBounds (label : string) (s : store)
    : option (bound * bound) :=
  stats ← datasetStats s;
  Some (foldl (λ acc cur,
    if bool_decide (Stat.name cur = label)
       && bool_decide (Stat._CLS cur = BOUNDS_CLS) then
      let bounds := Stat.bounds cur in
      (match bounds.1 with
       | Some b0 =>
           if bool_decide (b0 ≠ 0%Qc) then Some (toFixed2 (sub64 b0 (dec 1 100)))
           else bounds.1
       | None => bounds.1
       end,
       match bounds.2 with
       | Some b1 =>
           if bool_decide (b1 ≠ 1%Qc) then Some (toFixed2 (add64 b1 (dec 1 100)))
           else bounds.2
       | None => bounds.2
       end)
    else acc) (None, None) stats).

(** The test of that reducer: [cur] is the bounds of the field [label]. *)
Definition is_numeric_bounds_of (label : string) (cur : Stat.t) : bool :=
  bool_decide (Stat.name cur = label)
  && bool_decide (Stat._CLS cur = BOUNDS_CLS).

(** Getter of [filterNumericFieldIncludeNone]: [filter?.none ?? true]. *)
Definition filterNumericFieldIncludeNone (path : string) (s : store) : bool :=
  default true (Filter.none (filterStage.get path s)).

Module filterNumericFieldRange.
(** [filter?.range ?? get(numericFieldBounds(path))] *)
Definition get (path : string) (s : store) : option (bound * bound) :=
  match Filter.range (filterStage.get path s) with
  | Some range => Some range
  | None => numericFieldBounds path s
  end.

(** [resolveFilter] is called without labels. *)
Definition set (path : string) (range : bound * bound) (s : store)
    : option store :=
  bounds ← numericFieldBounds path s;
  let none := filterNumericFieldIncludeNone path s in
  let filter := resolveFilter bounds range none None in
  Some (filterStage.set path filter s).
End filterNumericFieldRange.

(** Setter of [filterNumericFieldIncludeNone]. *)
Definition filterNumericFieldIncludeNone_set (path : string) (none : bool)
    (s : store) : option store :=
  range ← filterNumericFieldRange.get path s;
  bounds ← numericFieldBounds path s;
  let filter := resolveFilter bounds range none None in
  Some (filterStage.set path filter s).

Section labels_ts_derived.
(** Constants of utils/labels, which this file only imports. *)
Variables VALID_LABEL_TYPES VALID_SCALAR_TYPES VALID_NUMERIC_TYPES : list string.

(** Throws on a label whose [embedded_doc_type] is missing; an element is
    [None] where [slice(-1)[0]] is undefined. *)
Definition labelTypes (dimension : string) (s : store)
    : option (list (option string)) :=
  mapM (λ l, t ← Field.embedded_doc_type l; Some (last (split "." t)))
       (labels VALID_LABEL_TYPES dimension s).

(** [names.map((n, i) => [n, types[i]])] *)
Definition labelTuples (dimension : string) (s : store)
    : option (list (string * option string)) :=
  types ← labelTypes dimension s;
  Some (imap (λ i n, (n, mjoin (types !! i)))
             (labelNames VALID_LABEL_TYPES dimension s)).

Definition labelPaths (s : store) : list string :=
  let sampleLabels := labelNames VALID_LABEL_TYPES "sample" s in
  let frameLabels := labelNames VALID_LABEL_TYPES "frame" s in
  sampleLabels ++ (String.append "frames." <$> frameLabels).

Definition isLabel (field : string) (s : store) : bool :=
  let names :=
    labelNames VALID_LABEL_TYPES "sample" s
    ++ (String.append "frames." <$> labelNames VALID_LABEL_TYPES "frame" s) in
  bool_decide (field ∈ names).

Definition scalarTypes (dimension : string) (s : store) : list string :=
  Field.ftype <$> scalars VALID_SCALAR_TYPES dimension s.

(** The object from scalar name to scalar type; a value is [None] where
    [types[i]] is undefined. *)
Definition scalarsMap (dimension : string) (s : store)
    : gmap string (option string) :=
  let types := scalarTypes dimension s in
  reduce_from (λ acc cur i, <[cur := types !! i]> acc) 0 ∅
              (scalarNames VALID_SCALAR_TYPES dimension s).

Definition isNumericField (name : string) (s : store) : bool :=
  let map := scalarsMap "sample" s in
  match mjoin (map !! name) with
  | Some ty => bool_decide (ty ∈ VALID_NUMERIC_TYPES)
  | None => false
  end.

(** Throws when the state holds no filters object ([Object.keys]). *)
Definition paginatedFilterStages (s : store)
    : option (gmap string filter_value) :=
  let scalars := scalarNames VALID_SCALAR_TYPES "sample" s in
  filters ← filterStages.get s;
  Some (foldl (λ acc cur,
                 if bool_decide (cur ∈ scalars) then
                   match filters !! cur with
                   | Some v => <[cur := v]> acc
                   | None => acc
                   end
                 else acc)
              ∅ (Object_keys filters)).



(** The test applied to each bound by [rangeIsFiltered]:
    [range[i] !== b && b !== null && range[i] !== null]. *)
Definition differs (b r : bound) : bool :=
  bool_decide (r ≠ b) && bool_decide (b ≠ None) && bool_decide (r ≠ None).

(** The reads come first, so the selector throws without stats even for
    a field that is neither a label nor numeric. *)
Definition fieldIsFiltered (field : string) (s : store) : option bool :=
  let label := isLabel field s in
  let numeric := isNumericField field s in
  range ← (if label then filterLabelConfidenceRange.get field s
           else filterNumericFieldRange.get field s);
  bounds ← (if label then labelConfidenceBounds field s
            else numericFieldBounds field s);
  let none :=
    if label then filterLabelIncludeNoConfidence field s
    else filterNumericFieldIncludeNone field s in
  let include := filterIncludeLabels field s in
  let maxMin : bound := if label then Some 0%Qc else bounds.1 in
  let minMax : bound := if label then Some 1%Qc else bounds.2 in
  let stretchedBounds : bound * bound :=
    (if bound_lt maxMin bounds.1 then maxMin else bounds.1,
     if bound_lt bounds.2 minMax then minMax else bounds.2) in
  if negb label && negb numeric then Some false
  else
    let rangeIsFiltered :=
      (differs stretchedBounds.1 range.1 || differs stretchedBounds.2 range.2)
      && bool_decide (bounds.1 ≠ bounds.2) in
    if numeric then Some (rangeIsFiltered || negb none)
    else Some (bool_decide (length include ≠ 0%nat) || rangeIsFiltered || negb none).
End labels_ts_derived.

End Selectors.

(** ** Sample data used to exercise the model *)
Module Examples.
Import JS Selectors.

Definition ground_truth : Field.t :=
  {| Field.name := "ground_truth"; Field.ftype := "fiftyone.core.fields.EmbeddedDocumentField";
     Field.embedded_doc_type := Some "fiftyone.core.labels.Detections" |}.

Definition uniqueness : Field.t :=
  {| Field.name := "uniqueness"; Field.ftype := "fiftyone.core.fields.FloatField";
     Field.embedded_doc_type := None |}.

Definition _id : Field.t :=
  {| Field.name := "_id"; Field.ftype := "fiftyone.core.fields.ObjectIdField";
     Field.embedded_doc_type := None |}.

Definition frame_number : Field.t :=
  {| Field.name := "frame_number"; Field.ftype := "fiftyone.core.fields.FrameNumberField";
     Field.embedded_doc_type := None |}.

Definition video : Dataset.t :=
  {| Dataset.name := "clips"; Dataset.media_type := "video";
     Dataset.sample_fields := Some [uniqueness; _id; ground_truth];
     Dataset.frame_fields := Some [frame_number; ground_truth] |}.

Definition count_stat (name : string) (n : Z) : Stat.t :=
  {| Stat.name := name; Stat._CLS := "fiftyone.core.aggregations.CountResult";
     Stat.count := Num (num n 1); Stat.bounds := (None, None) |}.

Definition bounds_stat (name : string) (bounds : bound * bound) : Stat.t :=
  {| Stat.name := name; Stat._CLS := CONFIDENCE_BOUNDS_CLS;
     Stat.count := Undefined; Stat.bounds := bounds |}.

(** A store over the [video] dataset with the given stats and filters;
    [ground_truth] is active on samples and on frames. *)
Definition store (stats : option (list Stat.t))
    (filters : gmap string filter_value) : store :=
  {| stateDescription :=
       {| dataset := Some video; filters := Some filters; view := [] |};
     datasetStats := stats;
     extendedDatasetStats := stats;
     datasetStatsLoading := false;
     extendedDatasetStatsLoading := false;
     activeLabels := λ dimension, {[ "ground_truth" := true ]};
     sent := [] |}.

(** Stand-ins for the tables of utils/labels. *)
Definition label_types : list string :=
  ["Classification"; "Classifications"; "Detection"; "Detections";
   "Keypoint"; "Keypoints"; "Polyline"; "Polylines"].

Definition scalar_types : list string :=
  ["fiftyone.core.fields.FloatField"; "fiftyone.core.fields.IntField";
   "fiftyone.core.fields.BooleanField"; "fiftyone.core.fields.StringField"].

Definition only_labels (ls : list string) : Filter.t :=
  {| Filter.range := None; Filter.none := None; Filter.labels := Some ls |}.


Definition label (confidence : maybe_num) (l : string) : Label.t :=
  {| Label.confidence := confidence; Label.label := Some l |}.

End Examples.

(** * Properties *)

Import JS.

(** ** Arithmetic of the number model *)

(** Order goals on [Qc] are moved to [Q], where [lra] decides them. *)
Ltac qc_to_q :=
  unfold Qcle, Qclt, Qcminus, Qcplus, Qcopp, Qcmult, num in *;
  simpl this in *; rewrite ?Qred_correct in *.

Ltac qc_lra := qc_to_q; lra.

Lemma Math_min_spec (a b : Qc) :
  (Math_min a b ≤ a)%Qc ∧ (Math_min a b ≤ b)%Qc
  ∧ (Math_min a b = a ∨ Math_min a b = b).
Proof.
  unfold Math_min. destruct (decide (a ≤ b)%Qc) as [Hab|Hab].
  - repeat split; [apply Qcle_refl | exact Hab | by left].
  - apply Qcnot_le_lt, Qclt_le_weak in Hab.
    repeat split; [exact Hab | apply Qcle_refl | by right].
Qed.

Lemma Math_max_spec (a b : Qc) :
  (a ≤ Math_max a b)%Qc ∧ (b ≤ Math_max a b)%Qc
  ∧ (Math_max a b = a ∨ Math_max a b = b).
Proof.
  unfold Math_max. destruct (decide (a ≤ b)%Qc) as [Hab|Hab].
  - repeat split; [exact Hab | apply Qcle_refl | by right].
  - apply Qcnot_le_lt, Qclt_le_weak in Hab.
    repeat split; [apply Qcle_refl | exact Hab | by left].
Qed.

(** ** Rounding to binary64 *)

Lemma rhe_error q :
  (inject_Z (round_half_even q) - q <= 1 # 2)%Q
  ∧ (q - inject_Z (round_half_even q) <= 1 # 2)%Q.
Proof.
  unfold round_half_even.
  pose proof (Qfloor_le q) as Hle. pose proof (Qlt_floor q) as Hlt.
  rewrite inject_Z_plus in Hlt. change (inject_Z 1) with 1%Q in Hlt.
  destruct (Qcompare_spec (q - inject_Z (Qfloor q)) (1 # 2)) as [He|He|He].
  - destruct (Z.even (Qfloor q)).
    + split; lra.
    + rewrite inject_Z_plus. change (inject_Z 1) with 1%Q. split; lra.
  - split; lra.
  - rewrite inject_Z_plus. change (inject_Z 1) with 1%Q. split; lra.
Qed.

Lemma rhe_ge (k : Z) q : (inject_Z k <= q)%Q → k ≤ round_half_even q.
Proof.
  intros Hk. apply Qfloor_resp_le in Hk. rewrite Qfloor_Z in Hk.
  unfold round_half_even. destruct (_ ?= _)%Q; [destruct (Z.even _)|..]; lia.
Qed.

Lemma pow2_pos e : (0 < 2 ^ e)%Q.
Proof. apply Qpower_0_lt. reflexivity. Qed.

Lemma pow2_succ e : (2 ^ (e + 1) == 2 * 2 ^ e)%Q.
Proof. rewrite Qpower_plus by discriminate. change (2 ^ 1)%Q with 2%Q. ring. Qed.

Lemma pow2_Z (n : Z) : 0 ≤ n → (inject_Z (2 ^ n) == 2 ^ n)%Q.
Proof. intros Hn. by rewrite Zpower_Qpower. Qed.

Lemma log2_bracket (d q pa pb A B : Q) :
  (0 < pb)%Q → (0 < B)%Q → (d * pb == pa)%Q → (q * B == A)%Q →
  (pa <= A)%Q → (A < 2 * pa)%Q → (pb <= B)%Q → (B < 2 * pb)%Q →
  (d < 2 * q)%Q ∧ (q < 2 * d)%Q.
Proof.
  intros Hpb HB Hd Hq Ha1 Ha2 Hb1 Hb2. split.
  - apply Qnot_le_lt. intros Hle.
    assert (q * B <= q * (2 * pb))%Q as H1.
    { destruct (Qlt_le_dec q 0) as [Hneg|Hpos].
      - exfalso. assert (q * B <= 0)%Q by nra. nra.
      - nra. }
    nra.
  - apply Qnot_le_lt. intros Hle.
    assert (0 < d)%Q as Hdpos by nra.
    nra.
Qed.

Lemma ilog2_spec q :
  (0 < q)%Q → (2 ^ ilog2 q <= q)%Q ∧ (q < 2 ^ (ilog2 q + 1))%Q.
Proof.
  intros Hq. destruct q as [a b]. unfold ilog2. cbn [Qnum Qden].
  assert (0 < a) as Ha.
  { unfold Qlt in Hq. cbn in Hq. lia. }
  set (la := Z.log2 a). set (lb := Z.log2 (Z.pos b)).
  destruct (Z.log2_spec a Ha) as [Ha1 Ha2]. fold la in Ha1, Ha2.
  destruct (Z.log2_spec (Z.pos b) (Pos2Z.is_pos b)) as [Hb1 Hb2].
  fold lb in Hb1, Hb2.
  assert (0 ≤ la) as Hla by apply Z.log2_nonneg.
  assert (0 ≤ lb) as Hlb by apply Z.log2_nonneg.
  rewrite Z.pow_succ_r in Ha2, Hb2 by done.
  assert (2 ^ (la - lb) * inject_Z (2 ^ lb) == inject_Z (2 ^ la))%Q as Hd.
  { rewrite !pow2_Z by done. rewrite <-Qpower_plus by discriminate.
    by replace (la - lb + lb) with la by lia. }
  rewrite Zle_Qle in Ha1, Hb1. rewrite Zlt_Qlt in Ha2, Hb2.
  rewrite inject_Z_mult in Ha2, Hb2. change (inject_Z 2) with 2%Q in Ha2, Hb2.
  assert (0 < inject_Z (Z.pos b))%Q as HB.
  { rewrite <-(Zlt_Qlt 0). lia. }
  assert (0 < inject_Z (2 ^ lb))%Q as Hpb.
  { rewrite <-(Zlt_Qlt 0). apply Z.pow_pos_nonneg; lia. }
  assert ((a # b) * inject_Z (Z.pos b) == inject_Z a)%Q as Hab.
  { rewrite (Qmake_Qdiv a b). field. lra. }
  destruct (log2_bracket _ _ _ _ _ _ Hpb HB Hd Hab Ha1 Ha2 Hb1 Hb2) as [Hlo Hhi].
  destruct (Qle_bool (2 ^ (la - lb)) (a # b)) eqn:Hle.
  - apply Qle_bool_iff in Hle. split; [exact Hle|].
    rewrite pow2_succ. exact Hhi.
  - assert (a # b < 2 ^ (la - lb))%Q as Hlt.
    { apply Qnot_le_lt. intros H. apply Qle_bool_iff in H. congruence. }
    replace (la - lb - 1 + 1) with (la - lb) by lia. split; [|exact Hlt].
    assert (2 ^ (la - lb) == 2 * 2 ^ (la - lb - 1))%Q as Heq.
    { rewrite <-pow2_succ. by replace (la - lb - 1 + 1) with (la - lb) by lia. }
    rewrite Heq in Hlo. lra.
Qed.

Lemma round64_pos_error q :
  (0 < q)%Q →
  (round64_pos q - q <= 2 ^ Z.max (ilog2 q - 52) (-1074) * (1 # 2))%Q
  ∧ (q - round64_pos q <= 2 ^ Z.max (ilog2 q - 52) (-1074) * (1 # 2))%Q.
Proof.
  intros Hq. unfold round64_pos.
  set (e := Z.max (ilog2 q - 52) (-1074)).
  pose proof (pow2_pos e) as HP.
  destruct (rhe_error (q / 2 ^ e)) as [H1 H2].
  assert (q / 2 ^ e * 2 ^ e == q)%Q as Hdiv by (field; lra).
  set (m := inject_Z (round_half_even (q / 2 ^ e))) in *.
  set (t := (q / 2 ^ e)%Q) in *. set (P := (2 ^ e)%Q) in *.
  clearbody m t P. split; nra.
Qed.

Lemma round64_pos_nonneg q : (0 < q)%Q → (0 <= round64_pos q)%Q.
Proof.
  intros Hq. unfold round64_pos.
  set (e := Z.max (ilog2 q - 52) (-1074)).
  pose proof (pow2_pos e) as HP.
  assert (0 ≤ round_half_even (q / 2 ^ e)) as Hm.
  { apply rhe_ge. change (inject_Z 0) with 0%Q.
    apply Qle_shift_div_l; [done|]. lra. }
  rewrite Zle_Qle in Hm. change (inject_Z 0) with 0%Q in Hm.
  set (m := inject_Z _) in *. clearbody m. nra.
Qed.

Lemma round64_pos_bound q (k : Z) :
  (0 < q)%Q → (q <= 2 ^ k)%Q → -1022 ≤ k →
  (round64_pos q - q <= 2 ^ (k - 53))%Q ∧ (q - round64_pos q <= 2 ^ (k - 53))%Q.
Proof.
  intros Hq Hk Hnormal.
  destruct (ilog2_spec q Hq) as [Hl _].
  assert (ilog2 q ≤ k) as Hlk.
  { apply (Qpower_le_compat_l_inv 2); [lra|done]. }
  assert (2 ^ Z.max (ilog2 q - 52) (-1074) <= 2 ^ (k - 52))%Q as Hpow.
  { apply Qpower_le_compat_l; [lia|done]. }
  assert (2 ^ (k - 52) == 2 * 2 ^ (k - 53))%Q as Heq.
  { rewrite <-pow2_succ. by replace (k - 53 + 1) with (k - 52) by lia. }
  destruct (round64_pos_error q Hq) as [H1 H2].
  set (P := (2 ^ Z.max (ilog2 q - 52) (-1074))%Q) in *. clearbody P.
  split; lra.
Qed.

Lemma round64_pos_ge_1 q : (1 <= q)%Q → (1 <= round64_pos q)%Q.
Proof.
  intros Hq. assert (0 < q)%Q as Hpos by lra.
  destruct (ilog2_spec q Hpos) as [Hl Hu].
  assert (0 ≤ ilog2 q) as Hl0.
  { assert (0 < ilog2 q + 1); [|lia].
    apply (Qpower_lt_compat_l_inv 2); [|done]. change (2 ^ 0)%Q with 1%Q. lra. }
  unfold round64_pos. rewrite Z.max_l by lia.
  set (l := ilog2 q) in *.
  pose proof (pow2_pos (l - 52)) as HP.
  assert (2 ^ l == 2 ^ 52 * 2 ^ (l - 52))%Q as Hsplit.
  { rewrite <-Qpower_plus by discriminate. by replace (52 + (l - 52)) with l by lia. }
  assert (2 ^ 52 ≤ round_half_even (q / 2 ^ (l - 52))) as Hm.
  { apply rhe_ge. rewrite pow2_Z by done.
    apply Qle_shift_div_l; [done|]. by rewrite <-Hsplit. }
  rewrite Zle_Qle, pow2_Z in Hm by done.
  assert (1 <= 2 ^ l)%Q as H1 by (by apply Qpower_1_le).
  set (m := inject_Z _) in *. clearbody m.
  set (P := (2 ^ (l - 52))%Q) in *. set (T := (2 ^ 52)%Q) in *.
  assert (0 < T)%Q by apply pow2_pos.
  clearbody P T. nra.
Qed.

(** What [round64] does, on the underlying rationals. *)
Lemma round64_cases (x : Qc) :
  (x == 0 ∧ round64 x == 0)%Q
  ∨ ((0 < x)%Q ∧ (round64 x == round64_pos x)%Q)
  ∨ ((x < 0)%Q ∧ (round64 x == - round64_pos (- x))%Q).
Proof.
  unfold round64, Qccompare.
  destruct (Qcompare_spec x 0%Qc) as [He|Hl|Hg];
    change (this 0%Qc) with 0%Q in *.
  - left. split; [exact He|reflexivity].
  - right. right. split; [exact Hl|].
    cbn [this Qcopp Q2Qc]. rewrite !Qred_correct. reflexivity.
  - right. left. split; [exact Hg|]. cbn [this Q2Qc]. apply Qred_correct.
Qed.

Lemma round64_nonpos (x : Qc) : (x <= 0)%Q → (round64 x <= 0)%Q.
Proof.
  intros Hx. destruct (round64_cases x) as [[_ ->]|[[Hp _]|[Hn ->]]]; [lra..|].
  assert (0 < - x)%Q as Hpos by lra.
  pose proof (round64_pos_nonneg _ Hpos). lra.
Qed.

Lemma round64_ge_1 (x : Qc) : (1 <= x)%Q → (1 <= round64 x)%Q.
Proof.
  intros Hx. destruct (round64_cases x) as [[He _]|[[Hp ->]|[Hn _]]]; [lra| |lra].
  by apply round64_pos_ge_1.
Qed.

Lemma round64_error (x : Qc) (k : Z) :
  -1022 ≤ k → (- 2 ^ k <= x)%Q → (x <= 2 ^ k)%Q →
  (round64 x - x <= 2 ^ (k - 53))%Q ∧ (x - round64 x <= 2 ^ (k - 53))%Q.
Proof.
  intros Hk Hlo Hhi. pose proof (pow2_pos (k - 53)) as HP.
  destruct (round64_cases x) as [[He ->]|[[Hp ->]|[Hn ->]]].
  - split; lra.
  - by apply round64_pos_bound.
  - assert (0 < - x)%Q as Hpos by lra.
    assert (- x <= 2 ^ k)%Q as Hb by lra.
    destruct (round64_pos_bound (- x) k Hpos Hb Hk). split; lra.
Qed.

(** Below 2^31 in magnitude the rounding error is at most 2^-22. *)
Lemma round64_near (x : Qc) :
  (- (2147483648 # 1) <= x)%Q → (x <= 2147483648 # 1)%Q →
  (round64 x - x <= 1 # 4194304)%Q ∧ (x - round64 x <= 1 # 4194304)%Q.
Proof.
  intros Hlo Hhi.
  assert (2 ^ 31 == 2147483648 # 1)%Q as H31 by reflexivity.
  assert (2 ^ (31 - 53) == 1 # 4194304)%Q as H22 by reflexivity.
  rewrite <-H22. apply round64_error; [lia|by rewrite H31..].
Qed.

Lemma rhe_nearest q (k : Z) :
  (Qabs (inject_Z (round_half_even q) - q) <= Qabs (inject_Z k - q))%Q.
Proof.
  unfold round_half_even.
  pose proof (Qfloor_le q) as Hle. pose proof (Qlt_floor q) as Hlt.
  rewrite inject_Z_plus in Hlt. change (inject_Z 1) with 1%Q in Hlt.
  set (f := Qfloor q) in *.
  assert (inject_Z k <= inject_Z f ∨ inject_Z f + 1 <= inject_Z k)%Q as Hk.
  { assert (k ≤ f ∨ f + 1 ≤ k) as [Hk|Hk] by lia;
      [left; by rewrite <-Zle_Qle|right].
    rewrite Zle_Qle, inject_Z_plus in Hk. exact Hk. }
  assert (inject_Z (f + 1) == inject_Z f + 1)%Q as Hsucc
    by (by rewrite inject_Z_plus).
  pose proof (Qle_Qabs (inject_Z k - q)) as Ha1.
  pose proof (Qle_Qabs (- (inject_Z k - q))) as Ha2. rewrite Qabs_opp in Ha2.
  set (A := Qabs (inject_Z k - q)) in *. clearbody A f.
  destruct (Qcompare_spec (q - inject_Z f) (1 # 2)) as [He|He|He];
    [destruct (Z.even f)|..]; rewrite ?Hsucc;
    apply Qabs_Qle_condition; destruct Hk; split; lra.
Qed.

(** On a tie the even neighbour is taken. *)
Lemma rhe_tie_even q :
  (Qabs (inject_Z (round_half_even q) - q) == 1 # 2)%Q →
  Z.even (round_half_even q) = true.
Proof.
  unfold round_half_even.
  pose proof (Qfloor_le q) as Hle. pose proof (Qlt_floor q) as Hlt.
  rewrite inject_Z_plus in Hlt. change (inject_Z 1) with 1%Q in Hlt.
  set (f := Qfloor q) in *.
  assert (inject_Z (f + 1) == inject_Z f + 1)%Q as Hsucc
    by (by rewrite inject_Z_plus).
  destruct (Qcompare_spec (q - inject_Z f) (1 # 2)) as [He|He|He].
  - destruct (Z.even f) eqn:Hf; [done|]. intros _.
    by rewrite Z.even_add, Hf.
  - intros Habs. exfalso. rewrite Qabs_neg in Habs by lra. lra.
  - intros Habs. exfalso. rewrite Hsucc, Qabs_pos in Habs by lra. lra.
Qed.

Lemma round64_pos_binary64 q : (0 < q)%Q → binary64 (round64_pos q).
Proof.
  intros Hq. unfold round64_pos.
  destruct (ilog2_spec q Hq) as [Hl Hu].
  set (l := ilog2 q) in *. set (e := Z.max (l - 52) (-1074)).
  pose proof (pow2_pos e) as HP.
  assert (q < 2 ^ 53 * 2 ^ e)%Q as Hlt.
  { rewrite <-Qpower_plus by discriminate.
    eapply Qlt_le_trans; [exact Hu|]. apply Qpower_le_compat_l; [lia|done]. }
  assert (round_half_even (q / 2 ^ e) ≤ 2 ^ 53) as Hm.
  { unfold round_half_even.
    assert (Qfloor (q / 2 ^ e) < 2 ^ 53) as Hf.
    { rewrite Zlt_Qlt, pow2_Z by done.
      eapply Qle_lt_trans; [apply Qfloor_le|].
      apply Qlt_shift_div_r; [done|exact Hlt]. }
    destruct (_ ?= _)%Q; [destruct (Z.even _)|..]; lia. }
  assert (0 ≤ round_half_even (q / 2 ^ e)) as Hm0.
  { apply rhe_ge. change (inject_Z 0) with 0%Q.
    apply Qle_shift_div_l; [done|]. lra. }
  destruct (decide (round_half_even (q / 2 ^ e) = 2 ^ 53)) as [Heq|Hne].
  - exists (2 ^ 52), (e + 1). split; [done|]. split; [lia|].
    rewrite Heq, pow2_succ, !pow2_Z by done.
    assert (2 ^ 53 == 2 * 2 ^ 52)%Q as -> by reflexivity. ring.
  - exists (round_half_even (q / 2 ^ e)), e. split; [lia|]. split; [lia|reflexivity].
Qed.

Lemma round64_pos_nearest q d :
  (0 < q)%Q → binary64 d →
  (Qabs (round64_pos q - q) <= Qabs (d - q))%Q.
Proof.
  intros Hq (m & e' & Hm & He' & Hd). unfold round64_pos.
  destruct (ilog2_spec q Hq) as [Hl Hu].
  set (l := ilog2 q) in *. set (e := Z.max (l - 52) (-1074)).
  pose proof (pow2_pos e) as HP.
  assert (∀ k : Z,
            (Qabs (inject_Z (round_half_even (q / 2 ^ e)) * 2 ^ e - q)
             <= Qabs (inject_Z k * 2 ^ e - q))%Q) as Hint.
  { intros k. pose proof (rhe_nearest (q / 2 ^ e) k) as Hn.
    assert (∀ a : Q, a * 2 ^ e - q == (a - q / 2 ^ e) * 2 ^ e)%Q as Hfac
      by (intros a; field; lra).
    rewrite !Hfac, !Qabs_Qmult, (Qabs_pos (2 ^ e)) by lra.
    apply Qmult_le_compat_r; [exact Hn|lra]. }
  destruct (decide (e ≤ e')) as [Hge|Hlt].
  - rewrite Hd.
    assert (inject_Z m * 2 ^ e' == inject_Z (m * 2 ^ (e' - e)) * 2 ^ e)%Q as ->.
    { rewrite inject_Z_mult, pow2_Z by lia.
      rewrite <-Qmult_assoc, <-Qpower_plus by discriminate.
      by replace (e' - e + e) with e' by lia. }
    apply Hint.
  - assert (e = l - 52) as Hnormal by lia.
    assert (d < 2 ^ l)%Q as Hdl.
    { rewrite Hd.
      assert (inject_Z m < 2 ^ 53)%Q as Hm'.
      { rewrite <-pow2_Z, <-Zlt_Qlt by done. lia. }
      pose proof (pow2_pos e') as HP'.
      assert (2 ^ 53 * 2 ^ e' <= 2 ^ l)%Q as Hpow.
      { rewrite <-Qpower_plus by discriminate.
        apply Qpower_le_compat_l; [lia|done]. }
      set (M := inject_Z m) in *. set (T := (2 ^ 53)%Q) in *.
      set (P' := (2 ^ e')%Q) in *. clearbody M T P'. nra. }
    specialize (Hint (2 ^ 52)).
    assert (inject_Z (2 ^ 52) * 2 ^ e == 2 ^ l)%Q as Hsplit.
    { rewrite pow2_Z, <-Qpower_plus by done.
      by replace (52 + e) with l by lia. }
    rewrite Hsplit in Hint.
    eapply Qle_trans; [exact Hint|].
    rewrite (Qabs_neg (2 ^ l - q)) by lra. rewrite (Qabs_neg (d - q)) by lra. lra.
Qed.

Lemma binary64_Qeq d d' : (d == d')%Q → binary64 d → binary64 d'.
Proof.
  intros Heq (m & e & Hm & He & Hd). exists m, e.
  split; [done|]. split; [done|]. by rewrite <-Heq.
Qed.

(** [round64] yields a binary64 value, and no binary64 value is nearer
    to its argument. *)
Lemma round64_nearest (x : Qc) :
  binary64 (round64 x)
  ∧ ∀ d, binary64 d → (Qabs (round64 x - x) <= Qabs (d - x))%Q.
Proof.
  assert (∀ d, binary64 d → binary64 (- d)) as Hopp.
  { intros d (m & e & Hm & He & Hd). exists (- m), e.
    split; [lia|]. split; [done|]. rewrite inject_Z_opp, Hd. ring. }
  destruct (round64_cases x) as [[He Hr]|[[Hp Hr]|[Hn Hr]]].
  - split.
    + exists 0, 0. split; [done|]. split; [done|]. rewrite Hr. reflexivity.
    + intros d _. rewrite Hr, He.
      assert (0 - 0 == 0)%Q as -> by ring. apply Qabs_nonneg.
  - split.
    + eapply binary64_Qeq; [symmetry; exact Hr|]. by apply round64_pos_binary64.
    + intros d Hd. rewrite Hr. by apply round64_pos_nearest.
  - assert (0 < - x)%Q as Hpos by lra. split.
    + eapply binary64_Qeq; [symmetry; exact Hr|].
      apply Hopp. by apply round64_pos_binary64.
    + intros d Hd. rewrite Hr.
      pose proof (round64_pos_nearest (- x) (- d) Hpos (Hopp d Hd)) as Hnear.
      assert (- round64_pos (- x) - x == - (round64_pos (- x) - - x))%Q as ->
        by ring.
      assert (d - x == - (- d - - x))%Q as -> by ring.
      by rewrite !Qabs_opp.
Qed.

(** ** The scrubber handle *)
Section indicator.
Import Indicator.

(** C7. On a pointer move the handler sets the spring's y to
    min(mainSize[1] - 35, max(pointerY - 16, 0)): the greater of
    pointerY - 16 and 0, unless mainSize[1] - 35 is smaller, and then
    mainSize[1] - 35. When mainSize[1] >= 35 this offset lies between 0
    and mainSize[1] - 35. The minimum and the maximum are given by what
    they are compared with, not by the functions of the model. *)
Theorem gestureHandler_offset (mainSizeValue xy : Qc * Qc) (dragging : bool)
    (sp : spring) :
  (∃ m : Qc,
      ((xy.2 - num 16 1 ≤ m)%Qc ∧ (0 ≤ m)%Qc
       ∧ (m = (xy.2 - num 16 1)%Qc ∨ m = 0%Qc))
      ∧ (y (gestureHandler mainSizeValue xy dragging sp)
           ≤ mainSizeValue.2 - num 35 1)%Qc
      ∧ (y (gestureHandler mainSizeValue xy dragging sp) ≤ m)%Qc
      ∧ (y (gestureHandler mainSizeValue xy dragging sp)
           = (mainSizeValue.2 - num 35 1)%Qc
         ∨ y (gestureHandler mainSizeValue xy dragging sp) = m))
  ∧ ((num 35 1 ≤ mainSizeValue.2)%Qc →
     (0 ≤ y (gestureHandler mainSizeValue xy dragging sp))%Qc
     ∧ (y (gestureHandler mainSizeValue xy dragging sp)
          ≤ mainSizeValue.2 - num 35 1)%Qc).
Proof.
  cbn [gestureHandler y].
  destruct (Math_min_spec (mainSizeValue.2 - num 35 1)%Qc
              (Math_max (xy.2 - num 16 1)%Qc 0%Qc)) as (Hl & Hr & Hcase).
  destruct (Math_max_spec (xy.2 - num 16 1)%Qc 0%Qc) as (Hpy & Hpos & Hmcase).
  split.
  - exists (Math_max (xy.2 - num 16 1)%Qc 0%Qc).
    split; [by split|]. split; [exact Hl|]. split; [exact Hr|exact Hcase].
  - intros Hsize. split; [|exact Hl].
    destruct Hcase as [-> | ->]; [|exact Hpos].
    clear -Hsize. qc_lra.
Qed.

(** A main area 600 high with the pointer at 300 puts the handle at
    284. *)
Lemma gestureHandler_offset_witness :
  (num 35 1 ≤ num 600 1)%Qc
  ∧ y (gestureHandler (num 800 1, num 600 1) (num 10 1, num 300 1) false initial)
    = num 284 1
  ∧ (0 ≤ y (gestureHandler (num 800 1, num 600 1) (num 10 1, num 300 1) false initial))%Qc
  ∧ (y (gestureHandler (num 800 1, num 600 1) (num 10 1, num 300 1) false initial)
       ≤ num 600 1 - num 35 1)%Qc.
Proof.
  assert (H : (num 35 1 ≤ num 600 1)%Qc) by (vm_compute; discriminate).
  split; [exact H|].
  destruct (gestureHandler_offset (num 800 1, num 600 1)
              (num 10 1, num 300 1) false initial)
    as [(m & (Hpy & _ & Hm) & _ & Hle & Hcase) Hrange].
  split; [|exact (Hrange H)].
  cbn [fst snd] in *.
  assert (m = num 284 1) as ->.
  { destruct Hm as [->| ->]; [apply Qc_is_canon; reflexivity|].
    exfalso. revert Hpy. vm_compute. intros Hpy. by apply Hpy. }
  destruct Hcase as [Hy|Hy]; [|exact Hy].
  exfalso. rewrite Hy in Hle. revert Hle. vm_compute. intros Hle. by apply Hle.
Defined.
End indicator.

(** ** The polling socket *)
Section https_socket.
Import HTTPSSocket.

Lemma timeout_do e s : timeout (do e s) = timeout s.
Proof. reflexivity. Qed.

Lemma timeout_gather_catch s :
  timeout (gather_catch s) = Z.min (timeout s * 2) 5000.
Proof. unfold gather_catch. by repeat case_match. Qed.

Lemma openTimeout_gather_catch s :
  openTimeout (gather_catch s) = openTimeout s.
Proof. unfold gather_catch. by repeat case_match. Qed.

Lemma scheduled_setInterval s : scheduled (setInterval s) = Some (timeout s).
Proof.
  unfold scheduled, setInterval, do. cbn [trace].
  rewrite omap_app. cbn [omap list_omap app]. by rewrite last_snoc.
Qed.

Lemma scheduled_gather_catch s :
  scheduled (gather_catch s) = Some (timeout (gather_catch s)).
Proof. unfold gather_catch. by rewrite scheduled_setInterval. Qed.

Lemma fold_pull_fields ms s :
  let s' := foldl (λ acc m,
              do (Fetch (location acc +:+ "&mode=pull") (Some m)) acc) s ms in
  timeout s' = timeout s ∧ openTimeout s' = openTimeout s.
Proof.
  revert s. induction ms as [|m ms IH]; intros s; [done|].
  cbn [foldl]. destruct (IH (do (Fetch (location s +:+ "&mode=pull") (Some m)) s))
    as [-> ->]. done.
Qed.

(** What [execute] leaves in the two timeout fields. *)
Lemma execute_fields messages s :
  let s' := match execute messages s with Done s' | Threw s' => s' end in
  openTimeout s' = openTimeout s
  ∧ (timeout s' = timeout s ∨ timeout s' = openTimeout s).
Proof.
  unfold execute.
  destruct (bool_decide (readyState s ∈ [CLOSED; CONNECTING]));
    [destruct (bool_decide ("open" ∈ events s))|];
    destruct messages as [ms|]; cbn -[foldl];
    try (split; [reflexivity | by auto]).
  - match goal with |- context [foldl ?f ?a ms] =>
      destruct (fold_pull_fields ms a) as [-> ->] end. auto.
  - match goal with |- context [foldl ?f ?a ms] =>
      destruct (fold_pull_fields ms a) as [-> ->] end. auto.
Qed.

Lemma timeout_ok_gather_catch s : timeout_ok s → timeout_ok (gather_catch s).
Proof.
  intros [Ho Ht]. split; [by rewrite openTimeout_gather_catch|].
  rewrite timeout_gather_catch. lia.
Qed.

Lemma timeout_ok_execute messages s :
  timeout_ok s →
  timeout_ok (match execute messages s with Done s' | Threw s' => s' end).
Proof.
  intros [Ho Ht]. destruct (execute_fields messages s) as [Ho' Ht'].
  split; [congruence|]. destruct Ht' as [-> | ->]; lia.
Qed.

Lemma timeout_ok_dispatch_message s :
  timeout_ok s → timeout_ok (dispatch_message s).
Proof. unfold dispatch_message. by case_bool_decide. Qed.

Lemma timeout_ok_step s e : timeout_ok s → timeout_ok (step s e).
Proof.
  intros Hs. destruct e as [|r|m|ms ty| |ev|ev]; cbn [step]; try exact Hs.
  - destruct r as [|ms]; cbn [gather_settled];
      [by apply timeout_ok_gather_catch|].
    pose proof (timeout_ok_execute ms s Hs) as He.
    destruct (execute ms s); [exact He | by apply timeout_ok_gather_catch].
  - unfold send_settled. destruct ms as [ms|].
    + pose proof (timeout_ok_execute ms s Hs) as He.
      destruct (execute ms s); [destruct ty|]; try exact He.
      by apply timeout_ok_dispatch_message.
    + destruct ty; [by apply timeout_ok_dispatch_message | exact Hs].
  - by apply timeout_ok_dispatch_message.
Qed.

Lemma timeout_ok_run es s : timeout_ok s → timeout_ok (run es s).
Proof.
  revert s. induction es as [|e es IH]; intros s Hs; [exact Hs|].
  apply IH, timeout_ok_step, Hs.
Qed.

Lemma timeout_ok_new loc : timeout_ok (new loc).
Proof. split; cbn; lia. Qed.

Lemma run_snoc es e s : run (es ++ [e]) s = step (run es s) e.
Proof. unfold run. by rewrite foldl_app. Qed.


Lemma live_timers_do e s :
  live_timers (do e s)
  = live_timers s + match e with
                    | SetInterval _ => 1
                    | ClearInterval _ => -1
                    | _ => 0
                    end.
Proof.
  unfold live_timers, do. cbn [trace]. rewrite foldl_app. cbn [foldl].
  destruct e; lia.
Qed.

Lemma scheduled_do e s :
  scheduled (do e s)
  = match e with SetInterval ms => Some ms | _ => scheduled s end.
Proof.
  unfold scheduled, do. cbn [trace]. rewrite omap_app.
  destruct e; cbn [omap list_omap app]; rewrite ?app_nil_r, ?last_snoc; done.
Qed.

Lemma announced_do e s : announced (do e s) = track (announced s) e.
Proof. unfold announced, do. cbn [trace]. by rewrite foldl_app. Qed.

Lemma armed_do e s : armed (do e s) = arm (armed s) e.
Proof. unfold armed, do. cbn [trace]. by rewrite foldl_app. Qed.

Lemma fold_pull_armed ms s :
  armed (foldl (λ acc m,
           do (Fetch (location acc +:+ "&mode=pull") (Some m)) acc) s ms)
  = armed s.
Proof.
  revert s. induction ms as [|m ms IH]; intros s; [done|].
  cbn [foldl]. by rewrite IH, armed_do.
Qed.

(** A request leaves every field and all that is read off the trace. *)
Lemma fold_pull_frame ms s :
  let s' := foldl (λ acc m,
              do (Fetch (location acc +:+ "&mode=pull") (Some m)) acc) s ms in
  timeout s' = timeout s ∧ interval s' = interval s
  ∧ openTimeout s' = openTimeout s ∧ readyState s' = readyState s
  ∧ live_timers s' = live_timers s ∧ scheduled s' = scheduled s
  ∧ announced s' = announced s.
Proof.
  revert s. induction ms as [|m ms IH]; intros s; [done|].
  cbn [foldl].
  destruct (IH (do (Fetch (location s +:+ "&mode=pull") (Some m)) s))
    as (-> & -> & -> & -> & -> & -> & ->).
  rewrite live_timers_do, scheduled_do, announced_do. cbn. repeat split; lia.
Qed.

Lemma timers_ok_setInterval s :
  live_timers s = 0 → armed s = Some None → timers_ok (setInterval s).
Proof.
  intros Hlive Harm. unfold timers_ok, setInterval.
  rewrite live_timers_do, scheduled_do, armed_do. cbn [timeout interval].
  change (armed _) with (armed s). rewrite Harm.
  unfold live_timers in *. cbn [trace]. repeat split; try done. lia.
Qed.

(** Clearing the timer held in [interval] stops the running timer. *)
Lemma timers_ok_clearInterval s :
  timers_ok s →
  live_timers (clearInterval s) = 0 ∧ armed (clearInterval s) = Some None.
Proof.
  intros (Hlive & Hint & _ & Harm). unfold clearInterval.
  rewrite live_timers_do, armed_do, Harm, Hint. cbn.
  rewrite bool_decide_eq_true_2 by done. split; [lia|done].
Qed.

Lemma timers_ok_rearm ms s :
  timers_ok s → timers_ok (setInterval (set_timeout ms (clearInterval s))).
Proof.
  intros Hs. destruct (timers_ok_clearInterval s Hs) as [Hlive Harm].
  by apply timers_ok_setInterval.
Qed.

(** The same with the timeout written before the timer is cleared, as
    [execute] does. *)
Lemma timers_ok_rearm_first ms s :
  timers_ok s → timers_ok (setInterval (clearInterval (set_timeout ms s))).
Proof.
  intros Hs. destruct (timers_ok_clearInterval s Hs) as [Hlive Harm].
  by apply timers_ok_setInterval.
Qed.

Lemma timers_ok_do e s :
  match e with SetInterval _ | ClearInterval _ => False | _ => True end →
  timers_ok s → timers_ok (do e s).
Proof.
  intros He (Hlive & Hint & Hsch & Harm). unfold timers_ok.
  rewrite live_timers_do, scheduled_do, armed_do.
  destruct e; try done; cbn; repeat split; try done; lia.
Qed.

Lemma timers_ok_pulls ms s :
  timers_ok s →
  timers_ok (foldl (λ acc m,
               do (Fetch (location acc +:+ "&mode=pull") (Some m)) acc) s ms).
Proof.
  unfold timers_ok. rewrite fold_pull_armed.
  destruct (fold_pull_frame ms s) as (-> & -> & _ & _ & -> & -> & _). done.
Qed.

Lemma timers_ok_gather_catch s : timers_ok s → timers_ok (gather_catch s).
Proof.
  intros Hs. unfold gather_catch.
  set (s1 := if _ && _ then do (Emit "close") s else s).
  assert (timers_ok s1) as Hs1.
  { unfold s1. destruct (_ && _); [by apply timers_ok_do|done]. }
  apply (timers_ok_rearm _ (set_readyState CLOSED s1)). exact Hs1.
Qed.

Lemma timers_ok_execute messages s :
  timers_ok s →
  timers_ok (match execute messages s with Done s' | Threw s' => s' end).
Proof.
  intros Hs. unfold execute.
  destruct (bool_decide (readyState s ∈ [CLOSED; CONNECTING]));
    [destruct (bool_decide ("open" ∈ events s))|]; try exact Hs.
  - assert (timers_ok (setInterval (clearInterval
              (set_timeout (openTimeout s) (do (Emit "open") s))))) as Hre.
    { apply (timers_ok_rearm_first (openTimeout s) (do (Emit "open") s)).
      by apply timers_ok_do. }
    destruct messages as [ms|]; [|exact Hre].
    by apply timers_ok_pulls.
  - destruct messages as [ms|]; [|exact Hs]. by apply timers_ok_pulls.
Qed.

Lemma timers_ok_dispatch_message s :
  timers_ok s → timers_ok (dispatch_message s).
Proof.
  intros Hs. unfold dispatch_message. case_bool_decide; [|done].
  by apply timers_ok_do.
Qed.

Lemma timers_ok_step s e : timers_ok s → timers_ok (step s e).
Proof.
  intros Hs. destruct e as [|r|m|ms ty| |ev|ev]; cbn [step]; try exact Hs.
  - by apply timers_ok_do.
  - destruct r as [|ms]; cbn [gather_settled];
      [by apply timers_ok_gather_catch|].
    pose proof (timers_ok_execute ms s Hs) as He.
    destruct (execute ms s); [exact He | by apply timers_ok_gather_catch].
  - by apply timers_ok_do.
  - unfold send_settled. destruct ms as [ms|].
    + pose proof (timers_ok_execute ms s Hs) as He.
      destruct (execute ms s); [destruct ty|]; try exact He.
      by apply timers_ok_dispatch_message.
    + destruct ty; [by apply timers_ok_dispatch_message | exact Hs].
  - by apply timers_ok_dispatch_message.
Qed.

Lemma timers_ok_new loc : timers_ok (new loc).
Proof. by apply timers_ok_setInterval. Qed.

Lemma readyState_gather_catch s : readyState (gather_catch s) = CLOSED.
Proof. unfold gather_catch. by destruct (_ && _). Qed.

Lemma timers_ok_run es s : timers_ok s → timers_ok (run es s).
Proof.
  revert s. induction es as [|e es IH]; intros s Hs; [exact Hs|].
  apply IH, timers_ok_step, Hs.
Qed.

Lemma announced_setInterval s : announced (setInterval s) = announced s.
Proof. unfold setInterval. by rewrite announced_do. Qed.

Lemma announced_clearInterval s : announced (clearInterval s) = announced s.
Proof. unfold clearInterval. by rewrite announced_do. Qed.

Lemma announced_set_timeout ms s : announced (set_timeout ms s) = announced s.
Proof. reflexivity. Qed.

Lemma announced_set_readyState r s :
  announced (set_readyState r s) = announced s.
Proof. reflexivity. Qed.

(** The two connection invariants are kept together: the second needs
    that the ready state is never CLOSING. *)
Lemma conn_ok_pulls ms s :
  open_ok s ∧ announced_ok s →
  open_ok (foldl (λ acc m,
             do (Fetch (location acc +:+ "&mode=pull") (Some m)) acc) s ms)
  ∧ announced_ok (foldl (λ acc m,
             do (Fetch (location acc +:+ "&mode=pull") (Some m)) acc) s ms).
Proof.
  unfold open_ok, announced_ok.
  destruct (fold_pull_frame ms s) as (-> & _ & -> & -> & _ & _ & ->). done.
Qed.

Lemma conn_ok_gather_catch s :
  open_ok s ∧ announced_ok s →
  open_ok (gather_catch s) ∧ announced_ok (gather_catch s).
Proof.
  intros [(Hot & Hnc & Hopen) (b & Hb & Hbo)]. unfold gather_catch. split.
  - split; [by destruct (_ && _)|]. split; done.
  - unfold announced_ok.
    rewrite announced_setInterval, announced_set_timeout,
      announced_clearInterval, announced_set_readyState.
    case_bool_decide as Hrs; cbn [andb]; [|by exists b].
    case_bool_decide; [|by exists b].
    rewrite announced_do, Hb, (Hbo Hrs). by exists false.
Qed.

Lemma conn_ok_execute messages s :
  open_ok s ∧ announced_ok s →
  open_ok (match execute messages s with Done s' | Threw s' => s' end)
  ∧ announced_ok (match execute messages s with Done s' | Threw s' => s' end).
Proof.
  intros [(Hot & Hnc & Hopen) (b & Hb & Hbo)]. unfold execute.
  case_bool_decide as Hrs.
  - case_bool_decide; [|by split; [|exists b]].
    assert (open_ok (set_readyState OPEN (setInterval (clearInterval
                (set_timeout (openTimeout s) (do (Emit "open") s)))))
            ∧ announced_ok (set_readyState OPEN (setInterval (clearInterval
                (set_timeout (openTimeout s) (do (Emit "open") s)))))) as Hre.
    { split; [by split|]. exists true. split; [|done].
      rewrite announced_set_readyState, announced_setInterval,
        announced_clearInterval, announced_set_timeout, announced_do, Hb.
      reflexivity. }
    destruct messages as [ms|]; [|exact Hre]. by apply conn_ok_pulls.
  - assert (readyState s = OPEN) as Hop.
    { destruct (readyState s); try done.
      - exfalso. apply Hrs. apply list_elem_of_further, list_elem_of_here.
      - exfalso. apply Hrs. apply list_elem_of_here. }
    assert (open_ok (set_readyState OPEN s)
            ∧ announced_ok (set_readyState OPEN s)) as Hsame.
    { split; [split; [done|]; split; [done|]; intros _; by apply Hopen|].
      exists b. split; [done|]. intros _. by apply Hbo. }
    destruct messages as [ms|]; [|exact Hsame]. by apply conn_ok_pulls.
Qed.

Lemma conn_ok_dispatch_message s :
  open_ok s ∧ announced_ok s →
  open_ok (dispatch_message s) ∧ announced_ok (dispatch_message s).
Proof.
  intros [Ho (b & Hb & Hbo)]. unfold dispatch_message.
  case_bool_decide; [|by split; [|exists b]].
  split; [done|]. exists b. by rewrite announced_do, Hb.
Qed.

Lemma conn_ok_step s e :
  open_ok s ∧ announced_ok s → open_ok (step s e) ∧ announced_ok (step s e).
Proof.
  intros Hs. destruct e as [|r|m|ms ty| |ev|ev]; cbn [step]; try exact Hs.
  - destruct Hs as [Ho (b & Hb & Hbo)]. split; [done|]. exists b.
    unfold gather. by rewrite announced_do, Hb.
  - destruct r as [|ms]; cbn [gather_settled];
      [by apply conn_ok_gather_catch|].
    pose proof (conn_ok_execute ms s Hs) as He.
    destruct (execute ms s); [exact He | by apply conn_ok_gather_catch].
  - destruct Hs as [Ho (b & Hb & Hbo)]. split; [done|]. exists b.
    by rewrite announced_do, Hb.
  - unfold send_settled. destruct ms as [ms|].
    + pose proof (conn_ok_execute ms s Hs) as He.
      destruct (execute ms s); [destruct ty|]; try exact He.
      by apply conn_ok_dispatch_message.
    + destruct ty; [by apply conn_ok_dispatch_message | exact Hs].
  - by apply conn_ok_dispatch_message.
Qed.

Lemma conn_ok_run es s :
  open_ok s ∧ announced_ok s → open_ok (run es s) ∧ announced_ok (run es s).
Proof.
  revert s. induction es as [|e es IH]; intros s Hs; [exact Hs|].
  apply IH, conn_ok_step, Hs.
Qed.

Lemma conn_ok_new loc : open_ok (new loc) ∧ announced_ok (new loc).
Proof. split; [by split|]. by exists false. Qed.

(** *** How a poll leaves the timeout

    What a settled poll does to a socket that satisfies the invariants:
    the three ways in which [gather] can end in its catch handler, and
    the one in which [execute] puts the timeout back. *)
Lemma not_open_closed s :
  open_ok s → readyState s ≠ OPEN → readyState s ∈ [CLOSED; CONNECTING].
Proof.
  intros (_ & Hnc & _) Hno. destruct (readyState s); try done.
  - apply list_elem_of_further, list_elem_of_here.
  - apply list_elem_of_here.
Qed.


Lemma poll_throws_before_reset messages s :
  open_ok s → readyState s ≠ OPEN → "open" ∉ events s →
  gather_settled (Resolved messages) s = gather_catch s.
Proof.
  intros Hopen Hno Hl. cbn [gather_settled]. unfold execute.
  by rewrite (bool_decide_eq_true_2 _ (not_open_closed s Hopen Hno)),
    (bool_decide_eq_false_2 _ Hl).
Qed.

Lemma poll_throws_after_reset s :
  timeout_ok s → open_ok s → readyState s = OPEN ∨ "open" ∈ events s →
  timeout (gather_settled (Resolved None) s) = 4000
  ∧ readyState (gather_settled (Resolved None) s) = CLOSED.
Proof.
  intros [Ho _] Hopen Hcase. cbn [gather_settled]. unfold execute.
  destruct (decide (readyState s = OPEN)) as [Hop|Hno].
  - rewrite bool_decide_eq_false_2.
    2:{ rewrite Hop. intros Hin. by repeat apply elem_of_cons in Hin as [?|Hin];
        try apply not_elem_of_nil in Hin. }
    rewrite readyState_gather_catch, timeout_gather_catch.
    destruct Hopen as (_ & _ & Ht). cbn. by rewrite (Ht Hop).
  - destruct Hcase as [?|Hl]; [done|].
    rewrite (bool_decide_eq_true_2 _ (not_open_closed s Hopen Hno)),
      (bool_decide_eq_true_2 _ Hl).
    rewrite readyState_gather_catch, timeout_gather_catch. cbn. by rewrite Ho.
Qed.




(** Handlers are only ever added. *)
Lemma fold_pull_events ms s :
  events (foldl (λ acc m,
            do (Fetch (location acc +:+ "&mode=pull") (Some m)) acc) s ms)
  = events s.
Proof.
  revert s. induction ms as [|m ms IH]; intros s; [done|].
  cbn [foldl]. by rewrite IH.
Qed.

Lemma events_gather_catch s : events (gather_catch s) = events s.
Proof. unfold gather_catch. by destruct (_ && _). Qed.

Lemma events_execute messages s :
  events (match execute messages s with Done s' | Threw s' => s' end) = events s.
Proof.
  unfold execute.
  destruct (bool_decide (readyState s ∈ [CLOSED; CONNECTING]));
    [destruct (bool_decide ("open" ∈ events s))|];
    destruct messages as [ms|]; try reflexivity;
    cbn -[foldl]; by rewrite fold_pull_events.
Qed.

Lemma events_dispatch_message s : events (dispatch_message s) = events s.
Proof. unfold dispatch_message. by case_bool_decide. Qed.

Lemma events_step s e (k : string) : k ∈ events s → k ∈ events (step s e).
Proof.
  intros Hk. destruct e as [|r|m|ms ty| |ev|ev]; cbn [step]; try exact Hk.
  - destruct r as [|ms]; cbn [gather_settled];
      [by rewrite events_gather_catch|].
    pose proof (events_execute ms s) as He.
    destruct (execute ms s); [by rewrite He|].
    by rewrite events_gather_catch, He.
  - unfold send_settled. destruct ms as [ms|].
    + pose proof (events_execute ms s) as He.
      destruct (execute ms s); [destruct ty|];
        rewrite ?events_dispatch_message, He; exact Hk.
    + destruct ty; rewrite ?events_dispatch_message; exact Hk.
  - by rewrite events_dispatch_message.
  - unfold addEventListener. cbn. set_solver.
Qed.

Lemma events_run es s (k : string) : k ∈ events s → k ∈ events (run es s).
Proof.
  revert s. induction es as [|e es IH]; intros s Hk; [exact Hk|].
  apply IH, events_step, Hk.
Qed.

(** C2, as the code has it. The backoff is not fixed: every failed poll
    runs the catch handler of gather, which replaces the timeout t in
    force at that moment by min(2 * t, 5000) and schedules the next poll
    with the new value. A rejected fetch, and a reply that makes execute
    throw before it resets the timeout, double the current timeout, so
    after n rejected fetches in a row a fresh socket polls every
    min(2000 * 2^n, 5000) ms. A reply without a messages array makes
    execute throw after the reset, or while the socket is open, where t
    is 2000: such failures leave 4000 ms however many follow each
    other. *)
Theorem backoff_after_failures (loc : string) (n : nat) :
  (timeout (run (replicate n (GatherSettled Rejected)) (new loc))
     = Z.min (2000 * 2 ^ Z.of_nat n) 5000
   ∧ scheduled (run (replicate n (GatherSettled Rejected)) (new loc))
     = Some (Z.min (2000 * 2 ^ Z.of_nat n) 5000))
  ∧ (timeout (run (AddEventListener "open"
                     :: replicate (S n) (GatherSettled (Resolved None)))
                  (new loc)) = 4000
     ∧ scheduled (run (AddEventListener "open"
                         :: replicate (S n) (GatherSettled (Resolved None)))
                      (new loc)) = Some 4000)
  ∧ ∀ es,
      let s := run es (new loc) in
      timeout (step s (GatherSettled Rejected)) = Z.min (timeout s * 2) 5000
      ∧ (∀ messages, readyState s ≠ OPEN → "open" ∉ events s →
           timeout (step s (GatherSettled (Resolved messages)))
           = Z.min (timeout s * 2) 5000)
      ∧ (readyState s = OPEN ∨ "open" ∈ events s →
           timeout (step s (GatherSettled (Resolved None))) = 4000)
      ∧ (∀ r, scheduled (step s (GatherSettled r))
              = Some (timeout (step s (GatherSettled r)))).
Proof.
  split; [|split].
  - induction n as [|n [IHt IHs]]; [done|].
    replace (replicate (S n) (GatherSettled Rejected))
      with (replicate n (GatherSettled Rejected) ++ [GatherSettled Rejected])
      by (by rewrite <-replicate_cons_app).
    rewrite run_snoc. cbn [step gather_settled].
    rewrite scheduled_gather_catch, timeout_gather_catch, IHt.
    assert (1 ≤ 2 ^ Z.of_nat n) by (apply Z.pow_le_mono_r with (b := 0); lia).
    replace (2 ^ Z.of_nat (S n)) with (2 * 2 ^ Z.of_nat n)
      by (rewrite Nat2Z.inj_succ, Z.pow_succ_r; lia).
    split; [|f_equal]; lia.
  - replace (AddEventListener "open"
               :: replicate (S n) (GatherSettled (Resolved None)))
      with ((AddEventListener "open"
               :: replicate n (GatherSettled (Resolved None)))
            ++ [GatherSettled (Resolved None)])
      by (cbn [app]; by rewrite <-replicate_cons_app).
    rewrite run_snoc.
    set (es := AddEventListener "open" :: replicate n (GatherSettled (Resolved None))).
    pose proof (timeout_ok_run es (new loc) (timeout_ok_new loc)) as Hok.
    destruct (conn_ok_run es (new loc) (conn_ok_new loc)) as [Hopen _].
    pose proof (timers_ok_step _ (GatherSettled (Resolved None))
                  (timers_ok_run es (new loc) (timers_ok_new loc)))
      as (_ & _ & Hsch & _).
    assert ("open" ∈ events (run es (new loc))) as Hl.
    { change (run es (new loc))
        with (run (replicate n (GatherSettled (Resolved None)))
                (step (new loc) (AddEventListener "open"))).
      apply events_run. cbn. set_solver. }
    destruct (poll_throws_after_reset _ Hok Hopen (or_intror Hl)) as [Ht _].
    cbn [step] in *. split; [exact Ht|]. by rewrite Hsch, Ht.
  - intros es s.
    pose proof (timeout_ok_run es (new loc) (timeout_ok_new loc)) as Hok.
    destruct (conn_ok_run es (new loc) (conn_ok_new loc)) as [Hopen _].
    pose proof (timers_ok_run es (new loc) (timers_ok_new loc)) as Htimers.
    fold s in Hok, Hopen, Htimers.
    split; [apply timeout_gather_catch|]. split; [|split].
    + intros messages Hno Hl. cbn [step].
      rewrite (poll_throws_before_reset messages s Hopen Hno Hl).
      apply timeout_gather_catch.
    + intros Hcase. by apply poll_throws_after_reset.
    + intros r. by destruct (timers_ok_step s (GatherSettled r) Htimers)
        as (_ & _ & Hsch & _).
Qed.

Lemma backoff_after_failures_witness :
  timeout (step (run [GatherSettled Rejected] (new "/polling"))
                (GatherSettled (Resolved (Some ["m"])))) = 5000
  ∧ timeout (step (run [AddEventListener "open"; GatherSettled Rejected;
                        GatherSettled Rejected] (new "/polling"))
                  (GatherSettled (Resolved None))) = 4000.
Proof.
  split.
  - apply (proj1 (proj2 (proj2 (proj2 (backoff_after_failures "/polling" 2))
             [GatherSettled Rejected]))).
    + discriminate.
    + by apply (bool_decide_unpack _).
  - apply (proj1 (proj2 (proj2 (proj2 (proj2 (backoff_after_failures "/polling" 2))
             [AddEventListener "open"; GatherSettled Rejected;
              GatherSettled Rejected])))).
    right. by apply (bool_decide_unpack _).
Defined.

(** C2, as stated, fails after a single failed poll: the next poll is
    scheduled with 4000 ms. *)
Lemma fixed_backoff_counterexample :
  timeout (run [GatherSettled Rejected] (new "/polling")) = 4000
  ∧ scheduled (run [GatherSettled Rejected] (new "/polling")) = Some 4000
  ∧ ¬ (∀ es, scheduled (run es (new "/polling")) = Some 2000).
Proof.
  split; [reflexivity|]. split; [reflexivity|].
  intros H. specialize (H [GatherSettled Rejected]). discriminate H.
Qed.
End https_socket.



(** ** Reductions over the stats *)

(** A [reduce] that overwrites the accumulator on every matching entry
    returns what the last matching entry gives. *)
Lemma foldl_no_match {A B} (P : A → bool) (f : A → B) (init : B) (l : list A) :
  Forall (λ x, P x = false) l →
  foldl (λ acc cur, if P cur then f cur else acc) init l = init.
Proof.
  intros Hl. revert init. induction Hl as [|x l Hx _ IH]; intros init; [done|].
  cbn [foldl]. rewrite Hx. apply IH.
Qed.

Lemma foldl_last_match {A B} (P : A → bool) (f : A → B) (init : B)
    (l1 : list A) (e : A) (l2 : list A) :
  P e = true → Forall (λ x, P x = false) l2 →
  foldl (λ acc cur, if P cur then f cur else acc) init (l1 ++ e :: l2) = f e.
Proof.
  intros He Hl2. rewrite foldl_app. cbn [foldl]. rewrite He.
  by apply foldl_no_match.
Qed.

Section counts.
Import Selectors.

(** C8. totalCount is the count of the last stats entry named "count",
    and null when the stats are missing or hold no such entry;
    filteredCount is the same function of the extended stats. *)
Theorem totalCount_last_count (s : store) :
  (∀ l1 e l2,
      datasetStats s = Some (l1 ++ e :: l2) →
      Stat.name e = "count" →
      Forall (λ x, Stat.name x ≠ "count") l2 →
      totalCount s = Stat.count e)
  ∧ (datasetStats s = None → totalCount s = Null)
  ∧ (∀ l, datasetStats s = Some l →
          Forall (λ x, Stat.name x ≠ "count") l → totalCount s = Null)
  ∧ (∀ s', datasetStats s' = extendedDatasetStats s →
           filteredCount s = totalCount s').
Proof.
  unfold totalCount, filteredCount. repeat split.
  - intros l1 e l2 -> He Hl2. cbn [default].
    apply (foldl_last_match (λ cur, bool_decide (Stat.name cur = "count"))
             Stat.count).
    + by apply bool_decide_eq_true_2.
    + eapply Forall_impl; [exact Hl2|]. intros x Hx.
      by apply bool_decide_eq_false_2.
  - by intros ->.
  - intros l -> Hl. cbn [default].
    apply (foldl_no_match (λ cur, bool_decide (Stat.name cur = "count"))
             Stat.count).
    eapply Forall_impl; [exact Hl|]. intros x Hx.
    by apply bool_decide_eq_false_2.
  - by intros s' ->.
Qed.

Lemma totalCount_last_count_witness :
  totalCount (Examples.store
    (Some [Examples.count_stat "count" 3; Examples.count_stat "count" 200;
           Examples.count_stat "ground_truth" 7]) ∅)
  = Num (num 200 1).
Proof.
  apply (proj1 (totalCount_last_count _) [Examples.count_stat "count" 3]
           (Examples.count_stat "count" 200)
           [Examples.count_stat "ground_truth" 7]).
  - reflexivity.
  - reflexivity.
  - repeat constructor. discriminate.
Defined.
End counts.

(** ** Confidence bounds *)

Lemma Qmake_100 (n : Z) : (n # 100 == inject_Z n * (1 # 100))%Q.
Proof. unfold Qeq, Qmult, inject_Z. simpl. lia. Qed.

(** Below 10^21 in magnitude [toFixed2] yields the binary64 value
    nearest to a multiple [n/100] of 0.01 that lies at distance at most
    0.005; from 10^21 on it returns its argument. *)
Lemma toFixed2_spec (x : Qc) :
  (num (- 10 ^ 21) 1 < x)%Qc → (x < num (10 ^ 21) 1)%Qc →
  ∃ n : Z, toFixed2 x = round64 (num n 100)
           ∧ (num n 100 - x ≤ num 1 200)%Qc ∧ (x - num n 100 ≤ num 1 200)%Qc
           ∧ ((x < 0)%Qc → n ≤ 0) ∧ ((0 ≤ x)%Qc → 0 ≤ n).
Proof.
  intros Hlo Hhi. unfold toFixed2.
  rewrite (bool_decide_eq_false_2 (num (10 ^ 21) 1 ≤ x)%Qc)
    by (by apply Qclt_not_le).
  rewrite (bool_decide_eq_false_2 (x ≤ num (- 10 ^ 21) 1)%Qc)
    by (by apply Qclt_not_le).
  cbn [orb]. clear Hlo Hhi.
  set (n := Qfloor (100 * Qabs x + (1 # 2))%Q).
  pose proof (Qfloor_le (100 * Qabs x + (1 # 2))%Q) as Hle.
  pose proof (Qlt_floor (100 * Qabs x + (1 # 2))%Q) as Hlt.
  fold n in Hle, Hlt.
  rewrite inject_Z_plus in Hlt. change (inject_Z 1) with 1%Q in Hlt.
  assert (0 ≤ n) as Hn.
  { pose proof (Qfloor_resp_le 0 (100 * Qabs x + (1 # 2))%Q) as Hfl.
    apply Hfl. pose proof (Qabs_nonneg x). lra. }
  clearbody n.
  destruct (decide (x < 0)%Qc) as [Hneg|Hpos].
  - exists (- n). split; [reflexivity|].
    assert (Qabs x == - x)%Q as Habs.
    { apply Qabs_neg. unfold Qclt in Hneg. simpl in Hneg.
      rewrite Qred_correct in Hneg. lra. }
    rewrite Habs in Hle, Hlt.
    split; [|split; [|split; [lia|]]];
      [| |intros Hge; exfalso; by apply (Qcle_not_lt _ _ Hge)];
      unfold Qcle, Qcminus, Qcplus, Qcopp, num; simpl this;
      rewrite !Qred_correct, Qmake_100, inject_Z_opp;
      change (Qred (1 # 200)) with (1 # 200)%Q; lra.
  - exists n. split; [reflexivity|].
    assert (Qabs x == x)%Q as Habs.
    { apply Qabs_pos. apply Qcnot_lt_le in Hpos. unfold Qcle in Hpos.
      simpl in Hpos. rewrite Qred_correct in Hpos. lra. }
    rewrite Habs in Hle, Hlt.
    split; [|split; [|split; [done|intros _; exact Hn]]];
      unfold Qcle, Qcminus, Qcplus, Qcopp, num; simpl this;
      rewrite !Qred_correct, Qmake_100;
      change (Qred (1 # 200)) with (1 # 200)%Q; lra.
Qed.

Lemma toFixed2_big (x : Qc) :
  (x ≤ num (- 10 ^ 21) 1)%Qc ∨ (num (10 ^ 21) 1 ≤ x)%Qc → toFixed2 x = x.
Proof.
  intros Hbig. unfold toFixed2.
  destruct Hbig as [Hlo|Hhi].
  - rewrite (bool_decide_eq_true_2 (x ≤ num (- 10 ^ 21) 1)%Qc) by done.
    by rewrite orb_true_r.
  - by rewrite (bool_decide_eq_true_2 (num (10 ^ 21) 1 ≤ x)%Qc) by done.
Qed.

Lemma toFixed2_cases (x : Qc) :
  toFixed2 x = x
  ∨ ((num (- 10 ^ 21) 1 < x)%Qc ∧ (x < num (10 ^ 21) 1)%Qc).
Proof.
  destruct (decide (x ≤ num (- 10 ^ 21) 1)%Qc) as [Hlo|Hlo].
  { left. apply toFixed2_big. by left. }
  destruct (decide (num (10 ^ 21) 1 ≤ x)%Qc) as [Hhi|Hhi].
  { left. apply toFixed2_big. by right. }
  right. split; by apply Qcnot_le_lt.
Qed.

Lemma toFixed2_nonpos (x : Qc) : (x ≤ 0)%Qc → (toFixed2 x ≤ 0)%Qc.
Proof.
  intros Hx. destruct (toFixed2_cases x) as [->|[Hlo Hhi]]; [done|].
  destruct (toFixed2_spec x Hlo Hhi) as (n & -> & Hup & _).
  apply round64_nonpos.
  assert (n ≤ 0) as Hn.
  { revert Hx Hup. unfold Qcle, Qcminus, Qcplus, Qcopp, num. simpl this.
    rewrite !Qred_correct, Qmake_100.
    change (Qred (1 # 200)) with (1 # 200)%Q. intros Hx Hup.
    assert (n < 1); [|lia]. rewrite Zlt_Qlt.
    change (inject_Z 1) with 1%Q. lra. }
  unfold num. cbn [this Q2Qc]. rewrite Qred_correct, Qmake_100.
  rewrite Zle_Qle in Hn. change (inject_Z 0) with 0%Q in Hn. lra.
Qed.

Lemma toFixed2_ge_1 (x : Qc) : (1 ≤ x)%Qc → (1 ≤ toFixed2 x)%Qc.
Proof.
  intros Hx. destruct (toFixed2_cases x) as [->|[Hlo Hhi]]; [done|].
  destruct (toFixed2_spec x Hlo Hhi) as (n & -> & _ & Hdown & _).
  apply round64_ge_1.
  assert (100 ≤ n) as Hn.
  { revert Hx Hdown. unfold Qcle, Qcminus, Qcplus, Qcopp, num. simpl this.
    rewrite !Qred_correct, Qmake_100.
    change (Qred (1 # 200)) with (1 # 200)%Q. intros Hx Hdown.
    assert (99 < n); [|lia]. rewrite Zlt_Qlt.
    change (inject_Z 99) with 99%Q. lra. }
  unfold num. cbn [this Q2Qc]. rewrite Qred_correct, Qmake_100.
  rewrite Zle_Qle in Hn. change (inject_Z 100) with 100%Q in Hn. lra.
Qed.

Section confidence_bounds.
Import Selectors.

Lemma labelConfidenceBounds_no_entry (label : string) (s : store) l :
  datasetStats s = Some l →
  Forall (λ x, is_bounds_of label x = false) l →
  labelConfidenceBounds label s = Some (None, None).
Proof.
  intros Hs Hl. unfold labelConfidenceBounds. rewrite Hs. cbn [mbind option_bind].
  f_equal. by apply (foldl_no_match (is_bounds_of label)).
Qed.

(** On an entry with numeric bounds [b0, b1] the selector gives
    min(0, b0) and max(1, b1), each moved outwards by 0.01 and rounded
    to two decimals unless it is exactly 0, respectively 1. *)
Lemma labelConfidenceBounds_numeric (label : string) (s : store) l1 e l2 b0 b1 :
  datasetStats s = Some (l1 ++ e :: l2) →
  is_bounds_of label e = true →
  Forall (λ x, is_bounds_of label x = false) l2 →
  Stat.bounds e = (Some b0, Some b1) →
  labelConfidenceBounds label s =
    Some (Some (if decide (Math_min 0 b0 = 0)%Qc then 0%Qc
                else toFixed2 (sub64 (Math_min 0 b0) (dec 1 100))),
          Some (if decide (Math_max 1 b1 = 1)%Qc then 1%Qc
                else toFixed2 (add64 (Math_max 1 b1) (dec 1 100)))).
Proof.
  intros Hs He Hl2 Hb. unfold labelConfidenceBounds. rewrite Hs.
  cbn [mbind option_bind]. f_equal.
  etrans; [by apply (foldl_last_match (is_bounds_of label))|].
  rewrite Hb. cbn [fst snd]. unfold lt_bound, bound_ToNumber. cbn [default].
  f_equal.
  - unfold Math_min. destruct (decide (0 ≤ b0)%Qc) as [Hle|Hgt].
    + rewrite decide_True by done. case_bool_decide as Hlt.
      * by rewrite bool_decide_eq_false_2 by (intros H; by apply H).
      * assert (b0 = 0%Qc) as -> by (apply Qcle_antisym; [by apply Qcnot_lt_le|done]).
        by rewrite bool_decide_eq_false_2 by (intros H; by apply H).
    + rewrite bool_decide_eq_false_2
        by (intros Hlt; apply Hgt; by apply Qclt_le_weak).
      case_bool_decide; [by rewrite decide_False|].
      rewrite decide_True; [|by destruct (decide (b0 = 0%Qc))].
      f_equal. by destruct (decide (b0 = 0%Qc)).
  - unfold Math_max. destruct (decide (1 ≤ b1)%Qc) as [Hle|Hgt].
    + rewrite bool_decide_eq_false_2 by (by apply Qcle_not_lt).
      case_bool_decide; [by rewrite decide_False|].
      rewrite decide_True; [|by destruct (decide (b1 = 1%Qc))].
      f_equal. by destruct (decide (b1 = 1%Qc)).
    + rewrite bool_decide_eq_true_2 by (by apply Qcnot_le_lt).
      rewrite decide_True by done.
      by rewrite bool_decide_eq_false_2 by (intros H; by apply H).
Qed.

(** C3 at an entry without confidences. The stats of a label field whose
    labels carry no confidence hold the bounds [null, null]; the selector
    then leaves the lower bound null ([0 < null] is false) and turns the
    upper bound into 1 ([1 > null] is true): the result is neither the
    widened pair [0, 1] nor the untouched pair [null, null]. *)
Theorem labelConfidenceBounds_null_bounds :
  labelConfidenceBounds "ground_truth"
    (Examples.store
       (Some [Examples.count_stat "count" 200;
              Examples.bounds_stat "ground_truth" (None, None)]) ∅)
  = Some (None, Some 1%Qc).
Proof. reflexivity. Qed.
End confidence_bounds.

(** ** The schema: fields, labels, scalars, field paths *)
Section schema.
Import Selectors.

Lemma foldl_insert_lookup (l : list Field.t) (m : gmap string Field.t) (n : string) :
  foldl (λ acc cur, <[Field.name cur := cur]> acc) m l !! n
  = match last (filter (λ f, Field.name f = n) l) with
    | Some f => Some f
    | None => m !! n
    end.
Proof.
  induction l as [|x l IH] using rev_ind; [done|].
  rewrite foldl_app, filter_app. cbn [foldl].
  destruct (decide (Field.name x = n)) as [Hx|Hx].
  - rewrite Hx, lookup_insert_eq.
    rewrite filter_cons_True by done. by rewrite filter_nil, last_snoc.
  - rewrite lookup_insert_ne by done. rewrite IH.
    rewrite filter_cons_False by done. by rewrite filter_nil, app_nil_r.
Qed.

(** [fields] keeps, for every name, the last schema entry of that name. *)
Lemma fields_lookup (dimension : string) (s : store) (n : string) :
  fields dimension s !! n
  = last (filter (λ f, Field.name f = n) (fieldSchema dimension s)).
Proof.
  unfold fields. rewrite foldl_insert_lookup, lookup_empty.
  by destruct (last _).
Qed.

Lemma fields_lookup_name dimension s n f :
  fields dimension s !! n = Some f →
  Field.name f = n ∧ f ∈ fieldSchema dimension s.
Proof.
  rewrite fields_lookup. intros Hlast.
  apply last_Some in Hlast as [l' Hl'].
  assert (f ∈ filter (λ f, Field.name f = n) (fieldSchema dimension s)) as Hin.
  { rewrite Hl'. apply elem_of_app. right. apply list_elem_of_here. }
  by apply list_elem_of_filter in Hin.
Qed.

Lemma fields_is_Some dimension s n :
  is_Some (fields dimension s !! n)
  ↔ ∃ f, f ∈ fieldSchema dimension s ∧ Field.name f = n.
Proof.
  split.
  - intros [f Hf]. exists f. by apply fields_lookup_name in Hf as [? ?].
  - intros (f & Hin & Hn). rewrite fields_lookup.
    assert (f ∈ filter (λ f, Field.name f = n) (fieldSchema dimension s)) as Hf
      by (by apply list_elem_of_filter).
    destruct (filter _ _) as [|x l] using rev_ind.
    + by apply not_elem_of_nil in Hf.
    + rewrite last_snoc. by eexists.
Qed.

Lemma Object_keys_elem_of {A} (m : gmap string A) (k : string) :
  k ∈ Object_keys m ↔ is_Some (m !! k).
Proof.
  unfold Object_keys. rewrite list_elem_of_fmap. split.
  - intros ([k' v] & -> & Hin). apply elem_of_map_to_list in Hin. by eexists.
  - intros [v Hv]. exists (k, v). split; [done|]. by apply elem_of_map_to_list.
Qed.


(** [Object.keys(o).map((k) => o[k])] lists the values of [o]. *)
Lemma Object_keys_values {A} (m : gmap string A) :
  omap (λ k, m !! k) (Object_keys m) = (map_to_list m).*2.
Proof.
  unfold Object_keys.
  assert (∀ l : list (string * A),
             (∀ k v, (k, v) ∈ l → m !! k = Some v) →
             omap (λ k, m !! k) l.*1 = l.*2) as Hgen.
  { induction l as [|[k v] l IH]; intros Hl; [done|].
    cbn. rewrite (Hl k v) by apply list_elem_of_here. f_equal.
    apply IH. intros k' v' Hin. apply Hl. by apply list_elem_of_further. }
  apply Hgen. intros k v. apply elem_of_map_to_list.
Qed.

Lemma values_elem_of (dimension : string) (s : store) (f : Field.t) :
  f ∈ omap (λ k, fields dimension s !! k) (Object_keys (fields dimension s))
  ↔ fields dimension s !! Field.name f = Some f.
Proof.
  rewrite Object_keys_values, list_elem_of_fmap. split.
  - intros ([k v] & -> & Hin). apply elem_of_map_to_list in Hin. cbn.
    by destruct (fields_lookup_name _ _ _ _ Hin) as [-> _].
  - intros Hf. exists (Field.name f, f). split; [done|].
    by apply elem_of_map_to_list.
Qed.
End schema.

(** ** Splitting on a separator *)
Section split.
Context (sep : ascii).

Lemma split_nonempty t : split sep t ≠ [].
Proof.
  destruct t as [|a t]; cbn; [done|].
  destruct (decide (a = sep)); [done|]. by destruct (split sep t).
Qed.

Lemma join_cons x l : l ≠ [] → join sep (x :: l) = x +:+ String sep (join sep l).
Proof. by destruct l. Qed.

Lemma join_split t : join sep (split sep t) = t.
Proof.
  induction t as [|a t IH]; [done|]. cbn [split].
  destruct (decide (a = sep)) as [->|Ha].
  - rewrite join_cons by apply split_nonempty. by rewrite IH.
  - pose proof (split_nonempty t) as Hne.
    destruct (split sep t) as [|h [|h' tl]]; [done|..].
    + cbn in *. by rewrite IH.
    + rewrite join_cons by done. rewrite join_cons in IH by done.
      by rewrite <-IH.
Qed.

Lemma split_no_sep t : Forall (λ c, sep ∉ String.list_ascii_of_string c) (split sep t).
Proof.
  induction t as [|a t IH]; cbn [split].
  - constructor; [|constructor]. cbn. apply not_elem_of_nil.
  - destruct (decide (a = sep)) as [->|Ha].
    + constructor; [|exact IH]. cbn. apply not_elem_of_nil.
    + pose proof (split_nonempty t) as Hne.
      destruct (split sep t) as [|h tl]; [done|].
      apply Forall_cons in IH as [Hh Htl]. constructor; [|exact Htl].
      cbn. intros [?|?]%elem_of_cons; [congruence|done].
Qed.

Lemma join_snoc l c : l ≠ [] → join sep (l ++ [c]) = join sep l +:+ String sep c.
Proof.
  induction l as [|x l IH]; [done|]. intros _. destruct l as [|y l]; [done|].
  change ((x :: y :: l) ++ [c]) with (x :: ((y :: l) ++ [c])).
  rewrite (join_cons x ((y :: l) ++ [c])) by done. rewrite IH by done.
  rewrite (join_cons x (y :: l)) by done.
  generalize (join sep (y :: l)). intros j. clear.
  induction x as [|a x IHx]; [done|].
  change (String a (x +:+ String sep (j +:+ String sep c))
          = String a ((x +:+ String sep j) +:+ String sep c)).
  by rewrite IHx.
Qed.

Lemma split_id c : sep ∉ String.list_ascii_of_string c → split sep c = [c].
Proof.
  induction c as [|a c IH]; [done|]. cbn. intros Hn.
  rewrite decide_False by (intros ->; apply Hn, list_elem_of_here).
  rewrite IH; [done|]. intros Hin. by apply Hn, list_elem_of_further.
Qed.

Lemma split_app_sep p c :
  split sep (p +:+ String sep c) = split sep p ++ split sep c.
Proof.
  induction p as [|a p IH].
  - change (EmptyString +:+ String sep c) with (String sep c).
    cbn [split]. by rewrite decide_True.
  - change (String a p +:+ String sep c) with (String a (p +:+ String sep c)).
    cbn [split]. rewrite IH. destruct (decide (a = sep)); [done|].
    pose proof (split_nonempty p) as Hne.
    by destruct (split sep p).
Qed.

(** The last element of the split is the final component. *)
Lemma last_split t c : last (split sep t) = Some c ↔ final_component sep t c.
Proof.
  split.
  - intros [l Hl]%last_Some. split.
    + pose proof (split_no_sep t) as Hall. rewrite Hl in Hall.
      by apply Forall_app in Hall as [_ [? _]%Forall_cons].
    + rewrite <-(join_split t), Hl. destruct l as [|x l]; [by left|right].
      exists (join sep (x :: l)). by apply join_snoc.
  - intros [Hc [->| [p ->]]].
    + by rewrite split_id.
    + rewrite split_app_sep, (split_id c) by done. apply last_snoc.
Qed.
End split.

Section classification.
Import Selectors.
Context (VALID_LABEL_TYPES VALID_SCALAR_TYPES : list string).

(** What [labelFilter] tests, whatever the table of label types. *)
Lemma labelFilter_true (f : Field.t) :
  labelFilter VALID_LABEL_TYPES f = true
  ↔ ∃ t c, Field.embedded_doc_type f = Some t ∧ t ≠ EmptyString
           ∧ final_component "." t c ∧ c ∈ VALID_LABEL_TYPES.
Proof.
  unfold labelFilter. split.
  - destruct (Field.embedded_doc_type f) as [[|a t]|]; [done| |done].
    destruct (last _) as [c|] eqn:Hlast; [|done].
    intros Hc%bool_decide_eq_true. exists (String a t), c.
    split; [done|]. split; [done|]. split; [|done]. by apply last_split.
  - intros (t & c & -> & Ht & Hfin & Hc). destruct t as [|a t]; [done|].
    apply last_split in Hfin. rewrite Hfin. by apply bool_decide_eq_true_2.
Qed.

(** C6. For every dimension, labels(dimension) holds exactly the fields
    whose embedded_doc_type is present and ends, after its last dot, in a
    member of VALID_LABEL_TYPES, and labelNames their names;
    scalars(dimension) holds exactly the fields whose ftype is in
    VALID_SCALAR_TYPES, and scalarNames their names. The fields of a
    dimension are the entries of its [fields] object; the empty string is
    taken not to be a label type. *)
Theorem classification_by_type (dimension : string) (s : store) :
  EmptyString ∉ VALID_LABEL_TYPES →
  (∀ f, f ∈ labels VALID_LABEL_TYPES dimension s
        ↔ fields dimension s !! Field.name f = Some f
          ∧ ∃ t c, Field.embedded_doc_type f = Some t
                   ∧ final_component "." t c ∧ c ∈ VALID_LABEL_TYPES)
  ∧ (∀ n, n ∈ labelNames VALID_LABEL_TYPES dimension s
          ↔ ∃ f, fields dimension s !! n = Some f
                 ∧ ∃ t c, Field.embedded_doc_type f = Some t
                          ∧ final_component "." t c ∧ c ∈ VALID_LABEL_TYPES)
  ∧ (∀ f, f ∈ scalars VALID_SCALAR_TYPES dimension s
          ↔ fields dimension s !! Field.name f = Some f
            ∧ Field.ftype f ∈ VALID_SCALAR_TYPES)
  ∧ (∀ n, n ∈ scalarNames VALID_SCALAR_TYPES dimension s
          ↔ ∃ f, fields dimension s !! n = Some f
                 ∧ Field.ftype f ∈ VALID_SCALAR_TYPES).
Proof.
  intros Hempty.
  assert (∀ f, labelFilter VALID_LABEL_TYPES f
               ↔ ∃ t c, Field.embedded_doc_type f = Some t
                        ∧ final_component "." t c ∧ c ∈ VALID_LABEL_TYPES) as Hlabel.
  { intros f. rewrite Is_true_true, labelFilter_true. split.
    - intros (t & c & ? & _ & ? & ?). by exists t, c.
    - intros (t & c & Ht & Hfin & Hc). exists t, c.
      split; [done|]. split; [|done]. intros ->.
      apply last_split in Hfin. cbn in Hfin. by simplify_eq. }
  assert (∀ f, scalarFilter VALID_SCALAR_TYPES f
               ↔ Field.ftype f ∈ VALID_SCALAR_TYPES) as Hscalar.
  { intros f. unfold scalarFilter. apply bool_decide_spec. }
  assert (∀ f, f ∈ labels VALID_LABEL_TYPES dimension s
        ↔ fields dimension s !! Field.name f = Some f
          ∧ ∃ t c, Field.embedded_doc_type f = Some t
                   ∧ final_component "." t c ∧ c ∈ VALID_LABEL_TYPES) as Hl.
  { intros f. unfold labels.
    rewrite list_elem_of_filter, values_elem_of, Hlabel. tauto. }
  assert (∀ f, f ∈ scalars VALID_SCALAR_TYPES dimension s
          ↔ fields dimension s !! Field.name f = Some f
            ∧ Field.ftype f ∈ VALID_SCALAR_TYPES) as Hs.
  { intros f. unfold scalars.
    rewrite list_elem_of_filter, values_elem_of, Hscalar. tauto. }
  split; [exact Hl|]. split; [|split; [exact Hs|]].
  - intros n. unfold labelNames. rewrite list_elem_of_fmap. split.
    + intros (f & -> & Hf). exists f. by apply Hl.
    + intros (f & Hf & Hty). exists f.
      destruct (fields_lookup_name _ _ _ _ Hf) as [<- _]. split; [done|].
      by apply Hl.
  - intros n. unfold scalarNames. rewrite list_elem_of_fmap. split.
    + intros (f & -> & Hf). exists f. by apply Hs.
    + intros (f & Hf & Hty). exists f.
      destruct (fields_lookup_name _ _ _ _ Hf) as [<- _]. split; [done|].
      by apply Hs.
Qed.
End classification.

Lemma classification_by_type_witness :
  Examples.ground_truth
    ∈ Selectors.labels Examples.label_types "sample" (Examples.store None ∅).
Proof.
  destruct (classification_by_type Examples.label_types Examples.scalar_types
              "sample" (Examples.store None ∅)) as (Hlabels & _).
  - by apply (bool_decide_unpack _).
  - apply Hlabels. split; [vm_compute; reflexivity|].
    exists "fiftyone.core.labels.Detections", "Detections".
    split; [reflexivity|]. split.
    + split; [by apply (bool_decide_unpack _)|].
      right. exists "fiftyone.core.labels". reflexivity.
    + by apply (bool_decide_unpack _).
Defined.

Section field_paths.
Import Selectors.




End field_paths.

(** ** JSON.stringify tells filter values apart *)
Section stringify.
Import Selectors.

Lemma commas_cons_cons (m m' : list token) ms :
  commas (m :: m' :: ms) = m ++ TComma :: commas (m' :: ms).
Proof. reflexivity. Qed.

Lemma stringify_labels_inj (ls1 ls2 : list string) (r1 r2 : list token) :
  commas ((λ e, [e]) <$> (TString <$> ls1)) ++ TRBrack :: r1
  = commas ((λ e, [e]) <$> (TString <$> ls2)) ++ TRBrack :: r2 →
  ls1 = ls2 ∧ r1 = r2.
Proof.
  revert ls2. induction ls1 as [|x l1 IH]; intros [|y l2] Heq.
  - by simplify_eq/=.
  - destruct l2; by simplify_eq/=.
  - destruct l1; by simplify_eq/=.
  - destruct l1 as [|x' l1], l2 as [|y' l2]; try (by simplify_eq/=).
    change (TString x :: TComma ::
              commas ((λ e, [e]) <$> (TString <$> x' :: l1)) ++ TRBrack :: r1
            = TString y :: TComma ::
              commas ((λ e, [e]) <$> (TString <$> y' :: l2)) ++ TRBrack :: r2)
      in Heq.
    injection Heq as -> Heq.
    destruct (IH (y' :: l2) Heq) as [-> ->]. done.
Qed.

Lemma stringify_bound_inj (b1 b2 : bound) :
  stringify_bound b1 = stringify_bound b2 → b1 = b2.
Proof. destruct b1, b2; cbn; congruence. Qed.

Lemma stringify_bool_inj (b1 b2 : bool) :
  stringify_bool b1 = stringify_bool b2 → b1 = b2.
Proof. by destruct b1, b2. Qed.

Lemma stringify_filter_inj (f1 f2 : Filter.t) :
  stringify_filter f1 = stringify_filter f2 → f1 = f2.
Proof.
  destruct f1 as [[[a1 b1]|] [n1|] [ls1|]], f2 as [[[a2 b2]|] [n2|] [ls2|]];
    unfold stringify_filter, stringify_array;
    cbn [Filter.range Filter.none Filter.labels app commas fmap list_fmap fst snd];
    intros Heq; try discriminate Heq;
    repeat match goal with
      | H : _ :: _ = _ :: _ |- _ => injection H as H; try discriminate
      | H : stringify_bound _ = stringify_bound _ |- _ =>
          apply stringify_bound_inj in H; subst
      | H : stringify_bool _ = stringify_bool _ |- _ =>
          apply stringify_bool_inj in H; subst
      | H : (_ ++ [TRBrack]) ++ _ = (_ ++ [TRBrack]) ++ _ |- _ =>
          rewrite <-!app_assoc in H; cbn [app] in H;
          apply stringify_labels_inj in H as [-> _]
      end;
    try done.
Qed.

Lemma JSON_stringify_inj (v1 v2 : filter_value) :
  JSON_stringify (Some v1) = JSON_stringify (Some v2) → v1 = v2.
Proof.
  destruct v1 as [|f1], v2 as [|f2]; intros Heq; [done| | |].
  - unfold JSON_stringify, stringify_filter in Heq. discriminate Heq.
  - unfold JSON_stringify, stringify_filter in Heq. discriminate Heq.
  - f_equal. apply stringify_filter_inj. cbn in Heq. congruence.
Qed.
End stringify.

(** ** filterStage *)
Section filter_stage.
Import Selectors.

Lemma read_property_lookup (o : gmap string filter_value) (k : string) :
  match o !! k with
  | Some v => read_property o k = Own v
  | None =>
      read_property o k = Missing ∧ k ≠ "__proto__" ∧ k ∉ Object_prototype_methods
      ∨ read_property o k = Method ∧ k ∈ Object_prototype_methods
      ∨ read_property o k = Prototype ∧ k = "__proto__"
  end.
Proof.
  unfold read_property. destruct (o !! k); [done|].
  case_bool_decide; [by right; right|]. case_bool_decide; [by right; left|by left].
Qed.



End filter_stage.

(** ** Confidence range of a label path *)
Section confidence_range.
Import Selectors.

Lemma filterStage_set_datasetStats path v s :
  datasetStats (filterStage.set path v s) = datasetStats s.
Proof. unfold filterStage.set. by repeat case_match. Qed.

Lemma labelConfidenceBounds_filterStage_set label path v s :
  labelConfidenceBounds label (filterStage.set path v s)
  = labelConfidenceBounds label s.
Proof. unfold labelConfidenceBounds. by rewrite filterStage_set_datasetStats. Qed.

Lemma labelConfidenceBounds_is_Some label s :
  is_Some (datasetStats s) → is_Some (labelConfidenceBounds label s).
Proof. intros [stats Hs]. unfold labelConfidenceBounds. rewrite Hs. by eexists. Qed.

(** What the path holds once [filterStage] has been set to [v]. The
    empty object set at [__proto__] equals the JSON text of what is read
    there, and is not stored. *)
Lemma stored_after_set path v s :
  match v with
  | FObj f =>
      default ∅ (filterStages.get (filterStage.set path v s)) !! path = Some v
      ∨ (f = Filter.empty
         ∧ default ∅ (filterStages.get (filterStage.set path v s)) !! path = None)
  | FNull =>
      truthy_prop (default ∅ (filterStages.get (filterStage.set path v s)) !! path)
      = false
  end.
Proof.
  unfold filterStage.set.
  pose proof (read_property_lookup (default ∅ (filterStages.get s)) path) as Hread.
  set (stored := read_property (default ∅ (filterStages.get s)) path) in *.
  destruct (negb (truthy v) && negb (truthy_property stored)) eqn:Hfalsy.
  { apply andb_true_iff in Hfalsy as [Hv Hst]. destruct v; [|done].
    apply negb_true_iff in Hst.
    destruct (default ∅ (filterStages.get s) !! path) as [old|]; [|done].
    rewrite Hread in Hst. exact Hst. }
  case_bool_decide as Hjson.
  { destruct (default ∅ (filterStages.get s) !! path) as [old|] eqn:Hold.
    - rewrite Hread in Hjson. apply JSON_stringify_inj in Hjson as <-.
      destruct v; [done|by left].
    - destruct Hread as [[Hr _]|[[Hr _]|[Hr _]]]; rewrite Hr in Hjson;
        [by destruct v..|].
      destruct v as [|f]; [done|]. right. split; [|done].
      apply stringify_filter_inj.
      apply (inj Some). exact Hjson. }
  destruct (negb (truthy v) && has_property stored) eqn:Hdel.
  - apply andb_true_iff in Hdel as [Hv _]. destruct v; [|done].
    cbn. by rewrite lookup_delete_eq.
  - cbn. rewrite lookup_insert_eq. destruct v; [|by left].
    cbn in Hdel, Hfalsy. destruct stored; try done.
Qed.

Lemma filterStage_get_set path v s :
  filterStage.get path (filterStage.set path v s)
  = match v with FNull => Filter.empty | FObj f => f end.
Proof.
  pose proof (stored_after_set path v s) as Hst. unfold filterStage.get.
  assert (∀ s', filterStages.get s' ≫= (.!! path)
                = default ∅ (filterStages.get s') !! path) as ->.
  { intros s'. by destruct (filterStages.get s'). }
  destruct v as [|f]; [|by destruct Hst as [->|[-> ->]]].
  by destruct (default ∅ _ !! path) as [[|?]|].
Qed.

(** [resolveFilter] never returns an empty object. *)
Lemma resolveFilter_nonempty bounds range none labels :
  resolveFilter bounds range none labels ≠ FObj Filter.empty.
Proof.
  unfold resolveFilter.
  destruct (bool_decide (range.1 = bounds.1) && bool_decide (range.2 = bounds.2)),
    none, labels as [[|l ls]|]; cbn [length negb andb];
    rewrite ?(bool_decide_eq_true_2 (0 < S _)%nat) by lia;
    rewrite ?(bool_decide_eq_false_2 (0 < 0)%nat) by lia;
    cbn [negb andb Filter.size Filter.range Filter.none Filter.labels
         Filter.empty Nat.add];
    rewrite ?(bool_decide_eq_true_2 (0 < S _)%nat) by lia; done.
Qed.

Lemma resolveFilter_range bounds range none labels :
  Filter.range (match resolveFilter bounds range none labels with
                | FNull => Filter.empty
                | FObj f => f
                end)
  = if decide (range = bounds) then None else Some range.
Proof.
  unfold resolveFilter. destruct range as [r0 r1], bounds as [b0 b1]. cbn [fst snd].
  destruct (decide (r0 = b0)) as [->|H0], (decide (r1 = b1)) as [->|H1];
    rewrite ?bool_decide_eq_true_2 by done;
    rewrite ?(bool_decide_eq_false_2 (r0 = b0)) by done;
    rewrite ?(bool_decide_eq_false_2 (r1 = b1)) by done;
    cbn [andb negb];
    [rewrite decide_True by done | rewrite decide_False by congruence ..];
    destruct none, labels as [[|l ls]|]; reflexivity.
Qed.

Lemma resolveFilter_null bounds range none labels :
  resolveFilter bounds range none (Some labels) = FNull
  ↔ range = bounds ∧ none = true ∧ labels = [].
Proof.
  unfold resolveFilter. destruct range as [r0 r1], bounds as [b0 b1]. cbn [fst snd].
  destruct (decide (r0 = b0)) as [->|H0], (decide (r1 = b1)) as [->|H1];
    rewrite ?bool_decide_eq_true_2 by done;
    rewrite ?(bool_decide_eq_false_2 (r0 = b0)) by done;
    rewrite ?(bool_decide_eq_false_2 (r1 = b1)) by done;
    cbn [andb negb];
    destruct none, labels as [|l ls]; cbn; split; try done;
    intros (? & ? & ?); congruence.
Qed.

(** C4, as the code has it. With the stats loaded, reading
    filterLabelConfidenceRange(path) right after setting it to range gives
    range back. When range differs from the bounds the stored filter
    records it. When range equals the bounds the path keeps no range and
    the getter falls back to the bounds; the entry itself is dropped
    exactly when no-confidence labels are included and no label list is
    set, the only case in which resolveFilter returns null. *)
Theorem confidence_range_set_get (path : string) (range : bound * bound)
    (s : store) :
  is_Some (datasetStats s) →
  ∃ bounds s',
    labelConfidenceBounds path s = Some bounds
    ∧ filterLabelConfidenceRange.set path range s = Some s'
    ∧ filterLabelConfidenceRange.get path s' = Some range
    ∧ (range ≠ bounds → Filter.range (filterStage.get path s') = Some range)
    ∧ (range = bounds →
         Filter.range (filterStage.get path s') = None
         ∧ labelConfidenceBounds path s' = Some range
         ∧ (truthy_prop (default ∅ (filterStages.get s') !! path) = false
            ↔ filterLabelIncludeNoConfidence path s = true
              ∧ filterIncludeLabels path s = [])).
Proof.
  intros Hstats.
  destruct (labelConfidenceBounds_is_Some path s Hstats) as [bounds Hb].
  set (v := resolveFilter bounds range (filterLabelIncludeNoConfidence path s)
              (Some (filterIncludeLabels path s))).
  exists bounds, (filterStage.set path v s).
  assert (Filter.range (filterStage.get path (filterStage.set path v s))
          = if decide (range = bounds) then None else Some range) as Hrange.
  { rewrite filterStage_get_set. apply resolveFilter_range. }
  split; [exact Hb|]. split.
  { unfold filterLabelConfidenceRange.set. by rewrite Hb. }
  split; [|split].
  - unfold filterLabelConfidenceRange.get. rewrite Hrange.
    destruct (decide (range = bounds)) as [->|]; [|done].
    by rewrite labelConfidenceBounds_filterStage_set.
  - intros Hne. by rewrite Hrange, decide_False.
  - intros ->. rewrite Hrange, decide_True by done.
    split; [done|]. split; [by rewrite labelConfidenceBounds_filterStage_set|].
    pose proof (stored_after_set path v s) as Hst.
    pose proof (resolveFilter_null bounds bounds
                  (filterLabelIncludeNoConfidence path s)
                  (filterIncludeLabels path s)) as Hnull.
    pose proof (resolveFilter_nonempty bounds bounds
                  (filterLabelIncludeNoConfidence path s)
                  (Some (filterIncludeLabels path s))) as Hne.
    fold v in Hnull, Hne. clearbody v. destruct v as [|f].
    + split; [intros _|done]. by destruct (proj1 Hnull eq_refl) as (_ & ? & ?).
    + destruct Hst as [Hst|[-> _]]; [|done].
      rewrite Hst. split; [done|]. intros [Hnone Hlabels].
      by discriminate (proj2 Hnull (conj eq_refl (conj Hnone Hlabels))).
Qed.

Lemma confidence_range_set_get_witness :
  ∃ bounds s',
    labelConfidenceBounds "ground_truth"
      (Examples.store (Some [Examples.bounds_stat "ground_truth"
                               (Some (num 1 10), Some (num 9 10))]) ∅)
    = Some bounds
    ∧ filterLabelConfidenceRange.set "ground_truth" (Some (num 1 2), Some 1%Qc)
        (Examples.store (Some [Examples.bounds_stat "ground_truth"
                                 (Some (num 1 10), Some (num 9 10))]) ∅)
      = Some s'
    ∧ filterLabelConfidenceRange.get "ground_truth" s'
      = Some (Some (num 1 2), Some 1%Qc).
Proof.
  destruct (confidence_range_set_get "ground_truth" (Some (num 1 2), Some 1%Qc)
              (Examples.store (Some [Examples.bounds_stat "ground_truth"
                                       (Some (num 1 10), Some (num 9 10))]) ∅))
    as (bounds & s' & Hb & Hset & Hget & _).
  - by eexists.
  - by exists bounds, s'.
Defined.

(** C4, as stated, fails where it says that a range equal to the bounds
    drops the filter entry: with a label list set on the path,
    resolveFilter does not return null and the entry stays. *)
Lemma range_reset_keeps_entry :
  labelConfidenceBounds "ground_truth"
    (Examples.store (Some [Examples.bounds_stat "ground_truth"
                             (Some (num 1 10), Some (num 9 10))])
       {[ "ground_truth" := FObj (Examples.only_labels ["cat"]) ]})
  = Some (Some 0%Qc, Some 1%Qc)
  ∧ resolveFilter (Some 0%Qc, Some 1%Qc) (Some 0%Qc, Some 1%Qc) true (Some ["cat"])
    = FObj (Examples.only_labels ["cat"])
  ∧ (filterLabelConfidenceRange.set "ground_truth" (Some 0%Qc, Some 1%Qc)
       (Examples.store (Some [Examples.bounds_stat "ground_truth"
                                (Some (num 1 10), Some (num 9 10))])
          {[ "ground_truth" := FObj (Examples.only_labels ["cat"]) ]})
     ≫= λ s', filterStages.get s' ≫= (.!! "ground_truth"))
    = Some (FObj (Examples.only_labels ["cat"])).
Proof. split; [reflexivity|]. split; reflexivity. Qed.
End confidence_range.

(** ** labelFilters *)
Section label_filters.
Import Selectors.





End label_filters.


(** * Further properties *)

(** ** The polling socket: timers and notifications *)
Section https_socket_more.
Import HTTPSSocket.

(** X1. A socket never leaks interval timers. Replayed from the start,
    the timer calls of every run alternate: a timer is armed only while
    none is running, and every clearInterval clears the timer that is
    running. After every sequence of events exactly one timer is running,
    and it was armed with the current timeout. *)
Theorem one_timer_with_current_timeout (loc : string) (es : list event) :
  armed (run es (new loc)) = Some (Some (timeout (run es (new loc))))
  ∧ interval (run es (new loc)) = timeout (run es (new loc))
  ∧ live_timers (run es (new loc)) = 1
  ∧ scheduled (run es (new loc)) = Some (timeout (run es (new loc))).
Proof.
  destruct (timers_ok_run es (new loc) (timers_ok_new loc))
    as (Hlive & Hint & Hsch & Harm).
  done.
Qed.

(** X2. Backoff applies only while the socket is disconnected: whenever
    the ready state is OPEN the timeout is 2000 ms and the armed timer was
    scheduled with 2000 ms; the ready state is never CLOSING. *)
Theorem open_polls_every_2000 (loc : string) (es : list event) :
  readyState (run es (new loc)) ≠ CLOSING
  ∧ (readyState (run es (new loc)) = OPEN →
     timeout (run es (new loc)) = 2000
     ∧ scheduled (run es (new loc)) = Some 2000).
Proof.
  destruct (conn_ok_run es (new loc) (conn_ok_new loc)) as [(_ & Hnc & Hopen) _].
  destruct (timers_ok_run es (new loc) (timers_ok_new loc)) as (_ & _ & Hsch & _).
  split; [exact Hnc|]. intros Hop. split; [by apply Hopen|].
  by rewrite Hsch, (Hopen Hop).
Qed.

Lemma open_polls_every_2000_witness :
  timeout (run [AddEventListener "open"; GatherSettled Rejected;
                GatherSettled (Resolved (Some ["m"])); Tick]
               (new "/polling")) = 2000
  ∧ scheduled (run [AddEventListener "open"; GatherSettled Rejected;
                    GatherSettled (Resolved (Some ["m"])); Tick]
                   (new "/polling")) = Some 2000.
Proof.
  apply (proj2 (open_polls_every_2000 "/polling"
           [AddEventListener "open"; GatherSettled Rejected;
            GatherSettled (Resolved (Some ["m"])); Tick])).
  reflexivity.
Defined.

(** X3. Close handlers run only for a connection whose open handlers have
    run, and once per connection: in the trace of every run each close
    notification has an open notification before it with no other close
    in between, and while the socket is OPEN the last of them is an
    open. *)
Theorem close_follows_open (loc : string) (es : list event) :
  ∃ opened, announced (run es (new loc)) = Some opened
            ∧ (readyState (run es (new loc)) = OPEN → opened = true).
Proof. apply (conn_ok_run es (new loc) (conn_ok_new loc)). Qed.

Lemma close_follows_open_witness :
  ∃ opened,
    announced (run [AddEventListener "open"; AddEventListener "close";
                    GatherSettled (Resolved (Some [])); GatherSettled Rejected;
                    GatherSettled (Resolved (Some []))] (new "/polling"))
    = Some opened
    ∧ opened = true.
Proof.
  destruct (close_follows_open "/polling"
              [AddEventListener "open"; AddEventListener "close";
               GatherSettled (Resolved (Some [])); GatherSettled Rejected;
               GatherSettled (Resolved (Some []))]) as (opened & Ha & Hop).
  exists opened. split; [exact Ha|]. apply Hop. reflexivity.
Defined.

End https_socket_more.

(** ** The scrubber handle: where the handle sits *)
Section indicator_more.
Import Indicator.

Ltac qc_eq := apply Qcle_antisym; qc_lra.

(** X4. With a main area at least 35 high the handle is at 0 while the
    pointer is above 16, follows the pointer at pointerY - 16 while
    16 <= pointerY <= mainSize[1] - 19, and stops at mainSize[1] - 35
    below that; with a main area lower than 35 it sits at the negative
    offset mainSize[1] - 35 wherever the pointer is. *)
Theorem gestureHandler_regimes (mainSizeValue xy : Qc * Qc) (dragging : bool)
    (sp : spring) :
  ((mainSizeValue.2 < num 35 1)%Qc →
   y (gestureHandler mainSizeValue xy dragging sp)
   = (mainSizeValue.2 - num 35 1)%Qc)
  ∧ ((num 35 1 ≤ mainSizeValue.2)%Qc → (xy.2 ≤ num 16 1)%Qc →
     y (gestureHandler mainSizeValue xy dragging sp) = 0%Qc)
  ∧ ((num 16 1 ≤ xy.2)%Qc → (xy.2 ≤ mainSizeValue.2 - num 19 1)%Qc →
     y (gestureHandler mainSizeValue xy dragging sp) = (xy.2 - num 16 1)%Qc)
  ∧ ((num 35 1 ≤ mainSizeValue.2)%Qc → (mainSizeValue.2 - num 19 1 ≤ xy.2)%Qc →
     y (gestureHandler mainSizeValue xy dragging sp)
     = (mainSizeValue.2 - num 35 1)%Qc).
Proof.
  destruct mainSizeValue as [w h], xy as [px py]. cbn [gestureHandler y fst snd].
  unfold Math_min, Math_max.
  repeat split; intros;
    destruct (decide (py - num 16 1 ≤ 0)%Qc) as [Hmax|Hmax];
    try apply Qcnot_le_lt in Hmax;
    match goal with
    | |- context [decide (?a ≤ ?b)%Qc] =>
        destruct (decide (a ≤ b)%Qc) as [Hmin|Hmin];
        try apply Qcnot_le_lt in Hmin
    end;
    first [reflexivity | qc_eq].
Qed.

Lemma gestureHandler_regimes_witness :
  y (gestureHandler (num 800 1, num 600 1) (num 10 1, num 300 1) true initial)
  = (num 300 1 - num 16 1)%Qc.
Proof.
  apply (proj1 (proj2 (proj2 (gestureHandler_regimes (num 800 1, num 600 1)
                   (num 10 1, num 300 1) true initial)))).
  - vm_compute. discriminate.
  - vm_compute. discriminate.
Defined.
End indicator_more.

(** ** Bounds: what padding and widening guarantee *)
Section bounds_more.
Import Selectors.

Lemma foldl_match_cases {A B} (P : A → bool) (f : A → B) (init : B) (l : list A) :
  foldl (λ acc cur, if P cur then f cur else acc) init l = init
  ∨ ∃ e, e ∈ l ∧ P e = true
         ∧ foldl (λ acc cur, if P cur then f cur else acc) init l = f e.
Proof.
  induction l as [|x l IH] using rev_ind; [by left|].
  rewrite foldl_app. cbn [foldl]. destruct (P x) eqn:Hx.
  - right. exists x. split; [|done]. apply elem_of_app. right. apply list_elem_of_here.
  - destruct IH as [IH|(e & He & HP & IH)]; [by left|right].
    exists e. split; [|done]. apply elem_of_app. by left.
Qed.

(** The literal 0.01 as a binary64 value. *)
Lemma dec_1_100_bounds :
  (num 9999 1000000 ≤ dec 1 100)%Qc ∧ (dec 1 100 ≤ num 10001 1000000)%Qc.
Proof. split; vm_compute; discriminate. Qed.

Lemma round64_near_Qc (x : Qc) :
  (num (-2147483648) 1 ≤ x)%Qc → (x ≤ num 2147483648 1)%Qc →
  (round64 x - x ≤ num 1 4194304)%Qc ∧ (x - round64 x ≤ num 1 4194304)%Qc.
Proof.
  intros Hlo Hhi. destruct (round64_near x) as [H1 H2].
  - exact Hlo.
  - exact Hhi.
  - unfold Qcle, Qcminus, Qcplus, Qcopp, num. cbn [this Q2Qc].
    rewrite !Qred_correct. split; lra.
Qed.

(** The computation of the [numericFieldBounds] reducer on one entry. *)
Lemma numericFieldBounds_last (label : string) (s : store) l1 e l2 :
  datasetStats s = Some (l1 ++ e :: l2) →
  is_numeric_bounds_of label e = true →
  Forall (λ x, is_numeric_bounds_of label x = false) l2 →
  numericFieldBounds label s
  = Some (match (Stat.bounds e).1 with
          | Some b0 =>
              if bool_decide (b0 ≠ 0%Qc) then Some (toFixed2 (sub64 b0 (dec 1 100)))
              else Some b0
          | None => None
          end,
          match (Stat.bounds e).2 with
          | Some b1 =>
              if bool_decide (b1 ≠ 1%Qc) then Some (toFixed2 (add64 b1 (dec 1 100)))
              else Some b1
          | None => None
          end).
Proof.
  intros Hs He Hl2. unfold numericFieldBounds. rewrite Hs.
  cbn [mbind option_bind]. f_equal.
  etrans; [by apply (foldl_last_match (is_numeric_bounds_of label))|].
  destruct (Stat.bounds e) as [[b0|] [b1|]]; cbn [fst snd];
    repeat case_bool_decide; reflexivity.
Qed.

(** Padding a bound of magnitude at most 2^30: the three roundings on
    the way, of the difference, of the decimal and of its reading, each
    add at most 2^-22. *)
Lemma pad_lower_spec (b0 : Qc) :
  (num (- 2 ^ 30) 1 ≤ b0)%Qc → (b0 ≤ num (2 ^ 30) 1)%Qc →
  (toFixed2 (sub64 b0 (dec 1 100)) < b0)%Qc
  ∧ (b0 - num 151 10000 ≤ toFixed2 (sub64 b0 (dec 1 100)))%Qc
  ∧ ∃ n : Z, toFixed2 (sub64 b0 (dec 1 100)) = round64 (num n 100).
Proof.
  intros Hb1 Hb2.
  change (num (- 2 ^ 30) 1) with (num (-1073741824) 1) in Hb1.
  change (num (2 ^ 30) 1) with (num 1073741824 1) in Hb2.
  destruct dec_1_100_bounds as [Hc1 Hc2].
  unfold sub64. set (c := dec 1 100) in *. clearbody c.
  destruct (round64_near_Qc (b0 - c)) as [Hx1 Hx2]; [qc_lra..|].
  set (x := round64 (b0 - c)) in *. clearbody x.
  destruct (toFixed2_spec x) as (n & -> & Hv1 & Hv2 & _).
  { change (num (- 10 ^ 21) 1) with (num (-1000000000000000000000) 1). qc_lra. }
  { change (num (10 ^ 21) 1) with (num 1000000000000000000000 1). qc_lra. }
  split; [|split; [|by exists n]].
  - destruct (round64_near_Qc (num n 100)) as [Hl1 Hl2];
      [set (v := num n 100) in *; clearbody v; qc_lra..|].
    set (lo := round64 (num n 100)) in *. clearbody lo.
    set (v := num n 100) in *. clearbody v. qc_lra.
  - destruct (round64_near_Qc (num n 100)) as [Hl1 Hl2];
      [set (v := num n 100) in *; clearbody v; qc_lra..|].
    set (lo := round64 (num n 100)) in *. clearbody lo.
    set (v := num n 100) in *. clearbody v. qc_lra.
Qed.

Lemma pad_upper_spec (b1 : Qc) :
  (num (- 2 ^ 30) 1 ≤ b1)%Qc → (b1 ≤ num (2 ^ 30) 1)%Qc →
  (b1 < toFixed2 (add64 b1 (dec 1 100)))%Qc
  ∧ (toFixed2 (add64 b1 (dec 1 100)) ≤ b1 + num 151 10000)%Qc
  ∧ ∃ n : Z, toFixed2 (add64 b1 (dec 1 100)) = round64 (num n 100).
Proof.
  intros Hb1 Hb2.
  change (num (- 2 ^ 30) 1) with (num (-1073741824) 1) in Hb1.
  change (num (2 ^ 30) 1) with (num 1073741824 1) in Hb2.
  destruct dec_1_100_bounds as [Hc1 Hc2].
  unfold add64. set (c := dec 1 100) in *. clearbody c.
  destruct (round64_near_Qc (b1 + c)) as [Hx1 Hx2]; [qc_lra..|].
  set (x := round64 (b1 + c)) in *. clearbody x.
  destruct (toFixed2_spec x) as (n & -> & Hv1 & Hv2 & _).
  { change (num (- 10 ^ 21) 1) with (num (-1000000000000000000000) 1). qc_lra. }
  { change (num (10 ^ 21) 1) with (num 1000000000000000000000 1). qc_lra. }
  split; [|split; [|by exists n]].
  - destruct (round64_near_Qc (num n 100)) as [Hl1 Hl2];
      [set (v := num n 100) in *; clearbody v; qc_lra..|].
    set (hi := round64 (num n 100)) in *. clearbody hi.
    set (v := num n 100) in *. clearbody v. qc_lra.
  - destruct (round64_near_Qc (num n 100)) as [Hl1 Hl2];
      [set (v := num n 100) in *; clearbody v; qc_lra..|].
    set (hi := round64 (num n 100)) in *. clearbody hi.
    set (v := num n 100) in *. clearbody v. qc_lra.
Qed.

(** X5. numericFieldBounds never cuts into the reported interval. For
    the last BoundsResult entry of the field, with numeric bounds
    [b0, b1] of magnitude at most 2^30, a lower bound 0 and an upper
    bound 1 are returned as they are, and any other bound is moved
    outwards, by more than 0 and at most 0.0151, to the binary64 value
    nearest to a multiple of 0.01. Null bounds are returned as null, and
    so is everything when the field has no entry. *)
Theorem numericFieldBounds_encloses (label : string) (s : store) :
  (∀ l1 e l2 b0 b1,
      datasetStats s = Some (l1 ++ e :: l2) →
      is_numeric_bounds_of label e = true →
      Forall (λ x, is_numeric_bounds_of label x = false) l2 →
      Stat.bounds e = (Some b0, Some b1) →
      (num (- 2 ^ 30) 1 ≤ b0)%Qc → (b0 ≤ num (2 ^ 30) 1)%Qc →
      (num (- 2 ^ 30) 1 ≤ b1)%Qc → (b1 ≤ num (2 ^ 30) 1)%Qc →
      ∃ lo hi, numericFieldBounds label s = Some (Some lo, Some hi)
               ∧ (b0 = 0%Qc → lo = 0%Qc)
               ∧ (b0 ≠ 0%Qc →
                    (lo < b0)%Qc ∧ (b0 - num 151 10000 ≤ lo)%Qc
                    ∧ ∃ n : Z, lo = round64 (num n 100))
               ∧ (b1 = 1%Qc → hi = 1%Qc)
               ∧ (b1 ≠ 1%Qc →
                    (b1 < hi)%Qc ∧ (hi ≤ b1 + num 151 10000)%Qc
                    ∧ ∃ n : Z, hi = round64 (num n 100)))
  ∧ (∀ l1 e l2,
      datasetStats s = Some (l1 ++ e :: l2) →
      is_numeric_bounds_of label e = true →
      Forall (λ x, is_numeric_bounds_of label x = false) l2 →
      Stat.bounds e = (None, None) →
      numericFieldBounds label s = Some (None, None))
  ∧ (∀ l, datasetStats s = Some l →
          Forall (λ x, is_numeric_bounds_of label x = false) l →
          numericFieldBounds label s = Some (None, None)).
Proof.
  split; [|split].
  - intros l1 e l2 b0 b1 Hs He Hl2 Hb Hb0 Hb0' Hb1 Hb1'.
    rewrite (numericFieldBounds_last label s l1 e l2 Hs He Hl2), Hb. cbn [fst snd].
    exists (if bool_decide (b0 ≠ 0%Qc) then toFixed2 (sub64 b0 (dec 1 100)) else b0),
      (if bool_decide (b1 ≠ 1%Qc) then toFixed2 (add64 b1 (dec 1 100)) else b1).
    split.
    { by destruct (bool_decide (b0 ≠ 0%Qc)), (bool_decide (b1 ≠ 1%Qc)). }
    split; [|split; [|split]].
    + intros ->. by rewrite bool_decide_eq_false_2 by (intros H; by apply H).
    + intros Hne. rewrite (bool_decide_eq_true_2 _ Hne). by apply pad_lower_spec.
    + intros ->. by rewrite bool_decide_eq_false_2 by (intros H; by apply H).
    + intros Hne. rewrite (bool_decide_eq_true_2 _ Hne). by apply pad_upper_spec.
  - intros l1 e l2 Hs He Hl2 Hb.
    by rewrite (numericFieldBounds_last label s l1 e l2 Hs He Hl2), Hb.
  - intros l Hs Hl. unfold numericFieldBounds. rewrite Hs.
    cbn [mbind option_bind]. f_equal.
    by apply (foldl_no_match (is_numeric_bounds_of label)).
Qed.

(** The bounds [0.135, 0.995]: 0.135 - 0.01 is read back as 0.13, and
    0.995 + 0.01, which lies below 1.005 in binary64, as 1. *)
Lemma numericFieldBounds_encloses_witness :
  ∃ lo hi,
    numericFieldBounds "uniqueness"
      (Examples.store
         (Some [{| Stat.name := "uniqueness"; Stat._CLS := BOUNDS_CLS;
                   Stat.count := Undefined;
                   Stat.bounds := (Some (dec 135 1000), Some (dec 995 1000)) |}]) ∅)
    = Some (Some lo, Some hi)
    ∧ (lo < dec 135 1000)%Qc ∧ (dec 995 1000 < hi)%Qc
    ∧ lo = dec 13 100 ∧ hi = 1%Qc.
Proof.
  destruct (proj1 (numericFieldBounds_encloses "uniqueness"
              (Examples.store
                 (Some [{| Stat.name := "uniqueness"; Stat._CLS := BOUNDS_CLS;
                           Stat.count := Undefined;
                           Stat.bounds := (Some (dec 135 1000), Some (dec 995 1000)) |}])
                 ∅))
             [] {| Stat.name := "uniqueness"; Stat._CLS := BOUNDS_CLS;
                   Stat.count := Undefined;
                   Stat.bounds := (Some (dec 135 1000), Some (dec 995 1000)) |}
             [] (dec 135 1000) (dec 995 1000))
    as (lo & hi & Hres & _ & Hlo & _ & Hhi).
  - reflexivity.
  - reflexivity.
  - constructor.
  - reflexivity.
  - vm_compute. discriminate.
  - vm_compute. discriminate.
  - vm_compute. discriminate.
  - vm_compute. discriminate.
  - exists lo, hi. split; [exact Hres|].
    split; [apply Hlo; vm_compute; discriminate|].
    split; [apply Hhi; vm_compute; discriminate|].
    vm_compute in Hres. injection Hres as <- <-.
    split; apply Qc_is_canon; vm_compute; reflexivity.
Defined.

(** Widening to [0, 1] and padding, one end at a time. *)
Lemma widen_lower (b0 : Qc) :
  (num (- 2 ^ 30) 1 ≤ b0)%Qc → (b0 ≤ num (2 ^ 30) 1)%Qc →
  let lo := if decide (Math_min 0 b0 = 0)%Qc then 0%Qc
            else toFixed2 (sub64 (Math_min 0 b0) (dec 1 100)) in
  (lo ≤ 0)%Qc ∧ (lo ≤ b0)%Qc
  ∧ ((0 ≤ b0)%Qc → lo = 0%Qc)
  ∧ ((b0 < 0)%Qc →
       (lo < b0)%Qc ∧ (b0 - num 151 10000 ≤ lo)%Qc
       ∧ ∃ n : Z, lo = round64 (num n 100)).
Proof.
  intros Hb0 Hb0'. cbn zeta. unfold Math_min.
  destruct (decide (0 ≤ b0)%Qc) as [Hpos|Hneg].
  - rewrite decide_True by done.
    split; [apply Qcle_refl|]. split; [exact Hpos|]. split; [done|].
    intros Hlt. exfalso. by apply (Qcle_not_lt _ _ Hpos).
  - apply Qcnot_le_lt in Hneg.
    rewrite decide_False by (intros ->; by apply (Qclt_not_le _ _ Hneg), Qcle_refl).
    destruct (pad_lower_spec b0 Hb0 Hb0') as (Hl1 & Hl2 & Hl3).
    split; [apply Qclt_le_weak; by etrans|]. split; [by apply Qclt_le_weak|].
    split; [|done]. intros Hpos. exfalso. by apply (Qcle_not_lt _ _ Hpos).
Qed.

Lemma widen_upper (b1 : Qc) :
  (num (- 2 ^ 30) 1 ≤ b1)%Qc → (b1 ≤ num (2 ^ 30) 1)%Qc →
  let hi := if decide (Math_max 1 b1 = 1)%Qc then 1%Qc
            else toFixed2 (add64 (Math_max 1 b1) (dec 1 100)) in
  (1 ≤ hi)%Qc ∧ (b1 ≤ hi)%Qc
  ∧ ((b1 ≤ 1)%Qc → hi = 1%Qc)
  ∧ ((1 < b1)%Qc →
       (b1 < hi)%Qc ∧ (hi ≤ b1 + num 151 10000)%Qc
       ∧ ∃ n : Z, hi = round64 (num n 100)).
Proof.
  intros Hb1 Hb1'. cbn zeta. unfold Math_max.
  destruct (decide (1 < b1)%Qc) as [Hbig|Hsmall].
  - rewrite (decide_True (P := (1 ≤ b1)%Qc)) by (by apply Qclt_le_weak).
    rewrite decide_False by (intros ->; by apply (Qclt_not_le _ _ Hbig), Qcle_refl).
    destruct (pad_upper_spec b1 Hb1 Hb1') as (Hu1 & Hu2 & Hu3).
    split; [apply Qclt_le_weak; by etrans|]. split; [by apply Qclt_le_weak|].
    split; [|done]. intros Hle. exfalso. by apply (Qcle_not_lt _ _ Hle).
  - apply Qcnot_lt_le in Hsmall.
    assert ((if decide (1 ≤ b1)%Qc then b1 else 1%Qc) = 1%Qc) as ->.
    { destruct (decide (1 ≤ b1)%Qc); [by apply Qcle_antisym|done]. }
    rewrite decide_True by done.
    split; [apply Qcle_refl|]. split; [exact Hsmall|]. split; [done|].
    intros Hlt. exfalso. by apply (Qcle_not_lt _ _ Hsmall).
Qed.

(** X6. For an entry with numeric bounds [b0, b1] of magnitude at most
    2^30, labelConfidenceBounds returns [lo, hi] enclosing both [0, 1]
    and [b0, b1]: lo is exactly 0 when b0 >= 0 and hi exactly 1 when
    b1 <= 1, and a bound outside [0, 1] is moved outwards, by more than 0
    and at most 0.0151, to the binary64 value nearest to a multiple of
    0.01. *)
Theorem labelConfidenceBounds_encloses (label : string) (s : store)
    l1 e l2 (b0 b1 : Qc) :
  datasetStats s = Some (l1 ++ e :: l2) →
  is_bounds_of label e = true →
  Forall (λ x, is_bounds_of label x = false) l2 →
  Stat.bounds e = (Some b0, Some b1) →
  (num (- 2 ^ 30) 1 ≤ b0)%Qc → (b0 ≤ num (2 ^ 30) 1)%Qc →
  (num (- 2 ^ 30) 1 ≤ b1)%Qc → (b1 ≤ num (2 ^ 30) 1)%Qc →
  ∃ lo hi,
    labelConfidenceBounds label s = Some (Some lo, Some hi)
    ∧ (lo ≤ 0)%Qc ∧ (lo ≤ b0)%Qc ∧ (1 ≤ hi)%Qc ∧ (b1 ≤ hi)%Qc
    ∧ ((0 ≤ b0)%Qc → lo = 0%Qc)
    ∧ ((b0 < 0)%Qc →
         (lo < b0)%Qc ∧ (b0 - num 151 10000 ≤ lo)%Qc
         ∧ ∃ n : Z, lo = round64 (num n 100))
    ∧ ((b1 ≤ 1)%Qc → hi = 1%Qc)
    ∧ ((1 < b1)%Qc →
         (b1 < hi)%Qc ∧ (hi ≤ b1 + num 151 10000)%Qc
         ∧ ∃ n : Z, hi = round64 (num n 100)).
Proof.
  intros Hs He Hl2 Hb Hb0 Hb0' Hb1 Hb1'.
  rewrite (labelConfidenceBounds_numeric label s l1 e l2 b0 b1 Hs He Hl2 Hb).
  eexists _, _. split; [reflexivity|].
  destruct (widen_lower b0 Hb0 Hb0') as (Hl1 & Hl2' & Hl3 & Hl4).
  destruct (widen_upper b1 Hb1 Hb1') as (Hu1 & Hu2 & Hu3 & Hu4).
  split; [exact Hl1|]. split; [exact Hl2'|]. split; [exact Hu1|].
  split; [exact Hu2|]. split; [exact Hl3|]. split; [exact Hl4|].
  split; [exact Hu3|exact Hu4].
Qed.

(** The bounds [-0.005, 1.005] are padded to [-0.01, 1.01]: the sums
    -0.015 and 1.015 of binary64 lie on the inner side of the ties. *)
Lemma labelConfidenceBounds_encloses_witness :
  ∃ lo hi,
    labelConfidenceBounds "ground_truth"
      (Examples.store (Some [Examples.bounds_stat "ground_truth"
                               (Some (dec (-5) 1000), Some (dec 1005 1000))]) ∅)
    = Some (Some lo, Some hi)
    ∧ (lo < dec (-5) 1000)%Qc ∧ (dec 1005 1000 < hi)%Qc
    ∧ lo = dec (-1) 100 ∧ hi = dec 101 100.
Proof.
  destruct (labelConfidenceBounds_encloses "ground_truth"
              (Examples.store (Some [Examples.bounds_stat "ground_truth"
                                       (Some (dec (-5) 1000), Some (dec 1005 1000))]) ∅)
              [] (Examples.bounds_stat "ground_truth"
                    (Some (dec (-5) 1000), Some (dec 1005 1000))) []
              (dec (-5) 1000) (dec 1005 1000))
    as (lo & hi & Hres & _ & _ & _ & _ & _ & Hlo & _ & Hhi).
  - reflexivity.
  - reflexivity.
  - constructor.
  - reflexivity.
  - vm_compute. discriminate.
  - vm_compute. discriminate.
  - vm_compute. discriminate.
  - vm_compute. discriminate.
  - exists lo, hi. split; [exact Hres|].
    split; [apply Hlo; vm_compute; reflexivity|].
    split; [apply Hhi; vm_compute; reflexivity|].
    vm_compute in Hres. injection Hres as <- <-.
    split; apply Qc_is_canon; vm_compute; reflexivity.
Defined.

(** Whatever the entry, the lower bound is null or at most 0 and the
    upper bound is null or at least 1. *)
Lemma labelConfidenceBounds_shape (label : string) (s : store) lo hi :
  labelConfidenceBounds label s = Some (lo, hi) →
  (∀ x, lo = Some x → (x ≤ 0)%Qc) ∧ (∀ y, hi = Some y → (1 ≤ y)%Qc).
Proof.
  unfold labelConfidenceBounds. destruct (datasetStats s) as [stats|]; [|done].
  cbn [mbind option_bind]. intros [= Heq].
  match type of Heq with
  | foldl (λ acc cur, if _ then @?f cur else acc) _ _ = _ =>
      pose proof (foldl_match_cases (is_bounds_of label) f (None, None) stats)
        as Hcases
  end.
  destruct Hcases as [Hinit|(e & _ & _ & He)].
  { pose proof (eq_trans (eq_sym Hinit) Heq) as H. by simplify_eq. }
  pose proof (eq_trans (eq_sym He) Heq) as H. clear Heq He. rename H into Heq.
  cbn beta zeta in Heq. destruct (Stat.bounds e) as [b0 b1].
  unfold lt_bound in Heq.
  cbn [fst snd bound_ToNumber default from_option id] in Heq.
  injection Heq as Hlo Hhi. split.
  - intros x ->. destruct b0 as [b0|];
      cbn [bound_ToNumber default from_option id] in Hlo.
    + destruct (bool_decide (0 < b0)%Qc) eqn:Hpos.
      * rewrite (bool_decide_eq_false_2 (0%Qc ≠ 0%Qc)) in Hlo
          by (intros H; apply H; reflexivity).
        injection Hlo as <-. apply Qcle_refl.
      * apply bool_decide_eq_false, Qcnot_lt_le in Hpos.
        destruct (bool_decide (b0 ≠ 0%Qc)) eqn:Hne.
        -- injection Hlo as <-. apply toFixed2_nonpos, round64_nonpos.
           destruct dec_1_100_bounds as [Hc _]. clear -Hpos Hc.
           set (c := dec 1 100) in *. clearbody c. qc_lra.
        -- injection Hlo as <-. exact Hpos.
    + rewrite (bool_decide_eq_false_2 (0 < 0)%Qc) in Hlo
        by (apply Qcle_not_lt, Qcle_refl).
      discriminate Hlo.
  - intros y ->. destruct b1 as [b1|];
      cbn [bound_ToNumber default from_option id] in Hhi.
    + destruct (bool_decide (b1 < 1)%Qc) eqn:Hsmall.
      * rewrite (bool_decide_eq_false_2 (1%Qc ≠ 1%Qc)) in Hhi
          by (intros H; apply H; reflexivity).
        injection Hhi as <-. apply Qcle_refl.
      * apply bool_decide_eq_false, Qcnot_lt_le in Hsmall.
        destruct (bool_decide (b1 ≠ 1%Qc)) eqn:Hne.
        -- injection Hhi as <-. apply toFixed2_ge_1, round64_ge_1.
           destruct dec_1_100_bounds as [Hc _]. clear -Hsmall Hc.
           set (c := dec 1 100) in *. clearbody c. qc_lra.
        -- injection Hhi as <-. exact Hsmall.
    + rewrite (bool_decide_eq_true_2 (0 < 1)%Qc) in Hhi by reflexivity.
      rewrite (bool_decide_eq_false_2 (1%Qc ≠ 1%Qc)) in Hhi
        by (intros H; apply H; reflexivity).
      injection Hhi as <-. apply Qcle_refl.
Qed.
End bounds_more.

(** ** The three settings of a path behave like independent cells *)
Section setters.
Import Selectors.

Lemma resolveFilter_none bounds range none labels :
  default true (Filter.none (match resolveFilter bounds range none labels with
                             | FNull => Filter.empty
                             | FObj f => f
                             end))
  = none.
Proof.
  unfold resolveFilter.
  destruct (bool_decide (range.1 = bounds.1) && bool_decide (range.2 = bounds.2)),
    none, labels as [[|l ls]|]; reflexivity.
Qed.

Lemma resolveFilter_labels bounds range none labels :
  default [] (Filter.labels (match resolveFilter bounds range none labels with
                             | FNull => Filter.empty
                             | FObj f => f
                             end))
  = default [] labels.
Proof.
  unfold resolveFilter.
  destruct (bool_decide (range.1 = bounds.1) && bool_decide (range.2 = bounds.2)),
    none, labels as [[|l ls]|]; reflexivity.
Qed.

Lemma filterStage_set_lookup_other path path' v s :
  path ≠ path' →
  default ∅ (filterStages.get (filterStage.set path v s)) !! path'
  = default ∅ (filterStages.get s) !! path'.
Proof.
  intros Hne. unfold filterStage.set.
  destruct (_ && _); [done|]. case_bool_decide; [done|].
  destruct (_ && _); cbn.
  - by rewrite lookup_delete_ne.
  - by rewrite lookup_insert_ne.
Qed.

Lemma filterStage_get_lookup path s :
  filterStage.get path s
  = match default ∅ (filterStages.get s) !! path with
    | Some (FObj f) => f
    | _ => Filter.empty
    end.
Proof. unfold filterStage.get. by destruct (filterStages.get s). Qed.

Lemma filterStage_get_set_other path path' v s :
  path ≠ path' →
  filterStage.get path' (filterStage.set path v s) = filterStage.get path' s.
Proof.
  intros Hne. by rewrite !filterStage_get_lookup, filterStage_set_lookup_other.
Qed.

(** What the three getters read once the path holds the filter resolved
    from [range], [none] and [labels], [bounds] being the default range. *)
Lemma getters_after_resolve path bounds range none labels s :
  Filter.range (filterStage.get path
     (filterStage.set path (resolveFilter bounds range none labels) s))
  = (if decide (range = bounds) then None else Some range)
  ∧ filterLabelIncludeNoConfidence path
      (filterStage.set path (resolveFilter bounds range none labels) s) = none
  ∧ filterIncludeLabels path
      (filterStage.set path (resolveFilter bounds range none labels) s)
    = default [] labels.
Proof.
  unfold filterLabelIncludeNoConfidence, filterIncludeLabels.
  rewrite !filterStage_get_set.
  split; [apply resolveFilter_range|].
  split; [apply resolveFilter_none | apply resolveFilter_labels].
Qed.

Lemma label_range_after_resolve path bounds range none labels s :
  labelConfidenceBounds path s = Some bounds →
  filterLabelConfidenceRange.get path
    (filterStage.set path (resolveFilter bounds range none labels) s)
  = Some range.
Proof.
  intros Hb. unfold filterLabelConfidenceRange.get.
  destruct (getters_after_resolve path bounds range none labels s) as [-> _].
  destruct (decide (range = bounds)) as [->|]; [|done].
  by rewrite labelConfidenceBounds_filterStage_set.
Qed.

Lemma label_range_is_Some path s :
  is_Some (datasetStats s) → is_Some (filterLabelConfidenceRange.get path s).
Proof.
  intros Hs. unfold filterLabelConfidenceRange.get.
  destruct (Filter.range _); [by eexists|].
  by apply labelConfidenceBounds_is_Some.
Qed.

(** X7. Reading filterStage(path) after setting it gives the value set
    ({} for null); the filters of the other paths are untouched; and the
    setter either changes nothing or stores new filters, sends exactly
    one filters_update message carrying those filters and marks the
    extended stats as loading. *)
Theorem filterStage_set_effect (path : string) (value : filter_value) (s : store) :
  filterStage.get path (filterStage.set path value s)
    = match value with FNull => Filter.empty | FObj f => f end
  ∧ (∀ path', path ≠ path' →
       filterStage.get path' (filterStage.set path value s)
       = filterStage.get path' s)
  ∧ (filterStage.set path value s = s
     ∨ ∃ filters,
         filterStages.get (filterStage.set path value s) = Some filters
         ∧ sent (filterStage.set path value s)
           = sent s ++ [packageMessage "filters_update" (FiltersArgs filters)]
         ∧ extendedDatasetStatsLoading (filterStage.set path value s) = true
         ∧ dataset (stateDescription (filterStage.set path value s))
           = dataset (stateDescription s)
         ∧ view (stateDescription (filterStage.set path value s))
           = view (stateDescription s)
         ∧ datasetStats (filterStage.set path value s) = datasetStats s).
Proof.
  split; [apply filterStage_get_set|].
  split; [intros path' Hne; by apply filterStage_get_set_other|].
  unfold filterStage.set.
  destruct (_ && _); [by left|]. case_bool_decide; [by left|].
  right. destruct (_ && _); eexists; repeat split.
Qed.

(** X8. Setting the confidence range of a path leaves its
    include-no-confidence flag and its include list as they read before,
    and leaves every other path alone. *)
Theorem confidence_range_set_frame (path : string) (range : bound * bound)
    (s : store) :
  is_Some (datasetStats s) →
  ∃ s', filterLabelConfidenceRange.set path range s = Some s'
        ∧ filterLabelIncludeNoConfidence path s'
          = filterLabelIncludeNoConfidence path s
        ∧ filterIncludeLabels path s' = filterIncludeLabels path s
        ∧ (∀ path', path ≠ path' →
             filterStage.get path' s' = filterStage.get path' s).
Proof.
  intros Hstats.
  destruct (labelConfidenceBounds_is_Some path s Hstats) as [bounds Hb].
  unfold filterLabelConfidenceRange.set. rewrite Hb. cbn [mbind option_bind].
  eexists. split; [reflexivity|].
  destruct (getters_after_resolve path bounds range
              (filterLabelIncludeNoConfidence path s)
              (Some (filterIncludeLabels path s)) s) as (_ & Hn & Hl).
  split; [exact Hn|]. split; [exact Hl|].
  intros path' Hne. by apply filterStage_get_set_other.
Qed.

Lemma confidence_range_set_frame_witness :
  ∃ s', filterLabelConfidenceRange.set "ground_truth" (Some (num 1 2), Some 1%Qc)
          (Examples.store (Some [])
             {[ "ground_truth" := FObj (Examples.only_labels ["cat"]) ]})
        = Some s'
        ∧ filterIncludeLabels "ground_truth" s'
          = filterIncludeLabels "ground_truth"
              (Examples.store (Some [])
                 {[ "ground_truth" := FObj (Examples.only_labels ["cat"]) ]}).
Proof.
  destruct (confidence_range_set_frame "ground_truth" (Some (num 1 2), Some 1%Qc)
              (Examples.store (Some [])
                 {[ "ground_truth" := FObj (Examples.only_labels ["cat"]) ]}))
    as (s' & Hset & _ & Hl & _).
  - eexists. reflexivity.
  - exists s'. split; [exact Hset|exact Hl].
Defined.

(** X9. Reading filterIncludeLabels(path) after setting it to labels
    gives labels back; the confidence range and the include-no-confidence
    flag of the path read as before, and every other path is left
    alone. *)
Theorem include_labels_set_get (path : string) (labels : list string)
    (s : store) :
  is_Some (datasetStats s) →
  ∃ s', filterIncludeLabels_set path labels s = Some s'
        ∧ filterIncludeLabels path s' = labels
        ∧ filterLabelConfidenceRange.get path s'
          = filterLabelConfidenceRange.get path s
        ∧ filterLabelIncludeNoConfidence path s'
          = filterLabelIncludeNoConfidence path s
        ∧ (∀ path', path ≠ path' →
             filterStage.get path' s' = filterStage.get path' s).
Proof.
  intros Hstats.
  destruct (labelConfidenceBounds_is_Some path s Hstats) as [bounds Hb].
  destruct (label_range_is_Some path s Hstats) as [range Hr].
  unfold filterIncludeLabels_set. rewrite Hb, Hr. cbn [mbind option_bind].
  eexists. split; [reflexivity|].
  destruct (getters_after_resolve path bounds range
              (filterLabelIncludeNoConfidence path s) (Some labels) s)
    as (_ & Hn & Hl).
  split; [exact Hl|]. split; [by apply label_range_after_resolve|].
  split; [exact Hn|]. intros path' Hne. by apply filterStage_get_set_other.
Qed.

Lemma include_labels_set_get_witness :
  ∃ s', filterIncludeLabels_set "ground_truth" ["cat"; "dog"]
          (Examples.store (Some []) ∅) = Some s'
        ∧ filterIncludeLabels "ground_truth" s' = ["cat"; "dog"].
Proof.
  destruct (include_labels_set_get "ground_truth" ["cat"; "dog"]
              (Examples.store (Some []) ∅)) as (s' & Hset & Hl & _).
  - eexists. reflexivity.
  - exists s'. split; [exact Hset|exact Hl].
Defined.

(** X10. Reading filterLabelIncludeNoConfidence(path) after setting it to
    none gives none back; the confidence range and the include list of
    the path read as before, and every other path is left alone. *)
Theorem include_no_confidence_set_get (path : string) (none : bool)
    (s : store) :
  is_Some (datasetStats s) →
  ∃ s', filterLabelIncludeNoConfidence_set path none s = Some s'
        ∧ filterLabelIncludeNoConfidence path s' = none
        ∧ filterLabelConfidenceRange.get path s'
          = filterLabelConfidenceRange.get path s
        ∧ filterIncludeLabels path s' = filterIncludeLabels path s
        ∧ (∀ path', path ≠ path' →
             filterStage.get path' s' = filterStage.get path' s).
Proof.
  intros Hstats.
  destruct (labelConfidenceBounds_is_Some path s Hstats) as [bounds Hb].
  destruct (label_range_is_Some path s Hstats) as [range Hr].
  unfold filterLabelIncludeNoConfidence_set. rewrite Hb, Hr.
  cbn [mbind option_bind].
  eexists. split; [reflexivity|].
  destruct (getters_after_resolve path bounds range none
              (Some (filterIncludeLabels path s)) s) as (_ & Hn & Hl).
  split; [exact Hn|]. split; [by apply label_range_after_resolve|].
  split; [exact Hl|]. intros path' Hne. by apply filterStage_get_set_other.
Qed.

Lemma include_no_confidence_set_get_witness :
  ∃ s', filterLabelIncludeNoConfidence_set "ground_truth" false
          (Examples.store (Some []) ∅) = Some s'
        ∧ filterLabelIncludeNoConfidence "ground_truth" s' = false.
Proof.
  destruct (include_no_confidence_set_get "ground_truth" false
              (Examples.store (Some []) ∅)) as (s' & Hset & Hn & _).
  - eexists. reflexivity.
  - exists s'. split; [exact Hset|exact Hn].
Defined.
End setters.

(** ** Numeric fields and the filtered indicator *)
Section numeric.
Import Selectors.

Lemma numericFieldBounds_filterStage_set label path v s :
  numericFieldBounds label (filterStage.set path v s) = numericFieldBounds label s.
Proof. unfold numericFieldBounds. by rewrite filterStage_set_datasetStats. Qed.

Lemma numericFieldBounds_is_Some label s :
  is_Some (datasetStats s) → is_Some (numericFieldBounds label s).
Proof. intros [stats Hs]. unfold numericFieldBounds. rewrite Hs. by eexists. Qed.

Lemma numeric_range_after_resolve path bounds range none labels s :
  numericFieldBounds path s = Some bounds →
  filterNumericFieldRange.get path
    (filterStage.set path (resolveFilter bounds range none labels) s)
  = Some range.
Proof.
  intros Hb. unfold filterNumericFieldRange.get.
  destruct (getters_after_resolve path bounds range none labels s) as [-> _].
  destruct (decide (range = bounds)) as [->|]; [|done].
  by rewrite numericFieldBounds_filterStage_set.
Qed.

Lemma numeric_range_is_Some path s :
  is_Some (datasetStats s) → is_Some (filterNumericFieldRange.get path s).
Proof.
  intros Hs. unfold filterNumericFieldRange.get.
  destruct (Filter.range _); [by eexists|].
  by apply numericFieldBounds_is_Some.
Qed.

(** X11. Reading filterNumericFieldRange(path) after setting it to range
    gives range back and the include-none flag reads as before; the
    setter resolves the filter without labels, so an include list held by
    the path is gone afterwards. Other paths are left alone. *)
Theorem numeric_range_set_get (path : string) (range : bound * bound)
    (s : store) :
  is_Some (datasetStats s) →
  ∃ s', filterNumericFieldRange.set path range s = Some s'
        ∧ filterNumericFieldRange.get path s' = Some range
        ∧ filterNumericFieldIncludeNone path s'
          = filterNumericFieldIncludeNone path s
        ∧ filterIncludeLabels path s' = []
        ∧ (∀ path', path ≠ path' →
             filterStage.get path' s' = filterStage.get path' s).
Proof.
  intros Hstats.
  destruct (numericFieldBounds_is_Some path s Hstats) as [bounds Hb].
  unfold filterNumericFieldRange.set. rewrite Hb. cbn [mbind option_bind].
  eexists. split; [reflexivity|].
  destruct (getters_after_resolve path bounds range
              (filterNumericFieldIncludeNone path s) None s) as (_ & Hn & Hl).
  split; [by apply numeric_range_after_resolve|].
  split; [exact Hn|]. split; [exact Hl|].
  intros path' Hne. by apply filterStage_get_set_other.
Qed.

Lemma numeric_range_set_get_witness :
  ∃ s', filterNumericFieldRange.set "uniqueness" (Some (num 1 4), Some (num 3 4))
          (Examples.store (Some [])
             {[ "uniqueness" := FObj (Examples.only_labels ["cat"]) ]})
        = Some s'
        ∧ filterNumericFieldRange.get "uniqueness" s'
          = Some (Some (num 1 4), Some (num 3 4))
        ∧ filterIncludeLabels "uniqueness" s' = [].
Proof.
  destruct (numeric_range_set_get "uniqueness" (Some (num 1 4), Some (num 3 4))
              (Examples.store (Some [])
                 {[ "uniqueness" := FObj (Examples.only_labels ["cat"]) ]}))
    as (s' & Hset & Hr & _ & Hl & _).
  - eexists. reflexivity.
  - exists s'. split; [exact Hset|]. split; [exact Hr|exact Hl].
Defined.

(** X12. Reading filterNumericFieldIncludeNone(path) after setting it to
    none gives none back and the range reads as before; here too an
    include list held by the path is gone afterwards, and other paths
    are left alone. *)
Theorem numeric_none_set_get (path : string) (none : bool) (s : store) :
  is_Some (datasetStats s) →
  ∃ s', filterNumericFieldIncludeNone_set path none s = Some s'
        ∧ filterNumericFieldIncludeNone path s' = none
        ∧ filterNumericFieldRange.get path s'
          = filterNumericFieldRange.get path s
        ∧ filterIncludeLabels path s' = []
        ∧ (∀ path', path ≠ path' →
             filterStage.get path' s' = filterStage.get path' s).
Proof.
  intros Hstats.
  destruct (numericFieldBounds_is_Some path s Hstats) as [bounds Hb].
  destruct (numeric_range_is_Some path s Hstats) as [range Hr].
  unfold filterNumericFieldIncludeNone_set. rewrite Hb, Hr.
  cbn [mbind option_bind].
  eexists. split; [reflexivity|].
  destruct (getters_after_resolve path bounds range none None s)
    as (_ & Hn & Hl).
  split; [exact Hn|]. split; [by apply numeric_range_after_resolve|].
  split; [exact Hl|]. intros path' Hne. by apply filterStage_get_set_other.
Qed.

Lemma numeric_none_set_get_witness :
  ∃ s', filterNumericFieldIncludeNone_set "uniqueness" false
          (Examples.store (Some []) ∅) = Some s'
        ∧ filterNumericFieldIncludeNone "uniqueness" s' = false.
Proof.
  destruct (numeric_none_set_get "uniqueness" false (Examples.store (Some []) ∅))
    as (s' & Hset & Hn & _).
  - eexists. reflexivity.
  - exists s'. split; [exact Hset|exact Hn].
Defined.
End numeric.

Section filtered.
Import Selectors.
Context (VALID_LABEL_TYPES VALID_SCALAR_TYPES VALID_NUMERIC_TYPES : list string).

Lemma differs_same (b : bound) : differs b b = false.
Proof.
  unfold differs. by rewrite (bool_decide_eq_false_2 (b ≠ b)) by (intros H; by apply H).
Qed.

(** X13. A field whose path holds no filter is never reported as
    filtered, whether it is a label, a numeric field or neither, and
    whatever bounds the stats give, null bounds included. *)
Theorem fieldIsFiltered_no_filter (field : string) (s : store) :
  is_Some (datasetStats s) →
  filterStage.get field s = Filter.empty →
  fieldIsFiltered VALID_LABEL_TYPES VALID_SCALAR_TYPES VALID_NUMERIC_TYPES field s
  = Some false.
Proof.
  intros Hstats Hempty. unfold fieldIsFiltered.
  unfold filterLabelConfidenceRange.get, filterNumericFieldRange.get,
    filterLabelIncludeNoConfidence, filterNumericFieldIncludeNone,
    filterIncludeLabels.
  rewrite Hempty. cbn [Filter.range Filter.none Filter.labels Filter.empty default
                       from_option id length].
  destruct (isLabel VALID_LABEL_TYPES field s).
  - destruct (labelConfidenceBounds field s) as [[lo hi]|] eqn:Hb.
    2:{ destruct (labelConfidenceBounds_is_Some field s Hstats) as [? ?]. congruence. }
    destruct (labelConfidenceBounds_shape field s lo hi Hb) as [Hlo Hhi].
    cbn [mbind option_bind fst snd negb andb].
    assert (bound_lt (Some 0%Qc) lo = false) as ->.
    { apply bool_decide_eq_false_2. destruct lo as [x|]; cbn.
      - by apply Qcle_not_lt, Hlo.
      - by apply Qcle_not_lt, Qcle_refl. }
    rewrite differs_same. cbn [orb].
    assert (differs (if bound_lt hi (Some 1%Qc) then Some 1%Qc else hi) hi = false)
      as ->.
    { destruct hi as [y|].
      - assert (bound_lt (Some y) (Some 1%Qc) = false) as ->; [|apply differs_same].
        apply bool_decide_eq_false_2. cbn. by apply Qcle_not_lt, Hhi.
      - unfold differs. apply andb_false_intro2, bool_decide_eq_false_2.
        intros H. by apply H. }
    cbn [andb orb negb]. rewrite bool_decide_eq_false_2 by (intros H; by apply H).
    by destruct (isNumericField _ _ _ _).
  - destruct (numericFieldBounds field s) as [[lo hi]|] eqn:Hb.
    2:{ destruct (numericFieldBounds_is_Some field s Hstats) as [? ?]. congruence. }
    cbn [mbind option_bind fst snd negb andb].
    assert (∀ b, bound_lt b b = false) as Hirr.
    { intros b. apply bool_decide_eq_false_2, Qcle_not_lt, Qcle_refl. }
    rewrite !Hirr, !differs_same. cbn [orb andb negb].
    by destruct (isNumericField _ _ _ _).
Qed.

End filtered.

Lemma fieldIsFiltered_no_filter_witness :
  Selectors.fieldIsFiltered Examples.label_types Examples.scalar_types
    ["fiftyone.core.fields.FloatField"] "ground_truth"
    (Examples.store (Some [Examples.bounds_stat "ground_truth" (None, None)]) ∅)
  = Some false.
Proof.
  refine (fieldIsFiltered_no_filter Examples.label_types Examples.scalar_types
            ["fiftyone.core.fields.FloatField"] "ground_truth"
            (Examples.store
               (Some [Examples.bounds_stat "ground_truth" (None, None)]) ∅) _ _).
  - eexists. reflexivity.
  - vm_compute. reflexivity.
Defined.

(** ** Objects built by reduce *)
Section reduce_objects.
Import Selectors.


(** X14. fields(dimension) holds one entry per schema name, the last
    schema entry of that name: a name listed twice keeps the later
    entry, every entry is stored under its own name, and a name the
    schema lacks is missing. *)
Theorem fields_last_entry_wins (dimension : string) (s : store) (n : string) :
  fields dimension s !! n
    = last (filter (λ f, Field.name f = n) (fieldSchema dimension s))
  ∧ (∀ f, fields dimension s !! n = Some f →
          Field.name f = n ∧ f ∈ fieldSchema dimension s)
  ∧ (fields dimension s !! n = None
     ↔ ∀ f, f ∈ fieldSchema dimension s → Field.name f ≠ n)
  ∧ (∀ l1 f l2, fieldSchema dimension s = l1 ++ f :: l2 →
        Field.name f = n → Forall (λ g, Field.name g ≠ n) l2 →
        fields dimension s !! n = Some f).
Proof.
  split; [apply fields_lookup|]. split; [apply fields_lookup_name|]. split.
  - rewrite eq_None_not_Some, fields_is_Some. split.
    + intros Hno f Hf Hn. apply Hno. by exists f.
    + intros Hall (f & Hf & Hn). by apply (Hall f).
  - intros l1 f l2 Hschema Hf Hl2. rewrite fields_lookup, Hschema, filter_app.
    rewrite filter_cons_True by done.
    assert (filter (λ g, Field.name g = n) l2 = []) as ->.
    { clear Hschema. induction Hl2 as [|g l2 Hg _ IH]; [done|].
      rewrite filter_cons_False by done. exact IH. }
    by rewrite last_snoc.
Qed.
End reduce_objects.

Lemma fields_last_entry_wins_witness :
  Selectors.fields "sample" (Examples.store None ∅) !! "_id" = Some Examples._id.
Proof.
  apply (proj2 (proj2 (proj2 (fields_last_entry_wins "sample"
           (Examples.store None ∅) "_id")))
           [Examples.uniqueness] Examples._id [Examples.ground_truth]).
  - reflexivity.
  - reflexivity.
  - repeat constructor. discriminate.
Defined.

(** ** Selectors derived from the label and scalar lists *)
Section derived.
Import Selectors.
Context (VALID_LABEL_TYPES VALID_SCALAR_TYPES VALID_NUMERIC_TYPES : list string).


End derived.


Section derived_lists.
Import Selectors.
Context (VALID_LABEL_TYPES VALID_SCALAR_TYPES VALID_NUMERIC_TYPES : list string).

Lemma imap_zip_lookup {A} (names : list A) (types : list (option string)) :
  length names = length types →
  imap (λ i n, (n, mjoin (types !! i))) names = zip names types.
Proof.
  revert types. induction names as [|n names IH]; intros [|ty types] Hlen;
    try done.
  cbn [imap zip zip_with]. f_equal. apply IH. by injection Hlen.
Qed.

Lemma labels_typed (dimension : string) (s : store) (f : Field.t) :
  f ∈ labels VALID_LABEL_TYPES dimension s →
  ∃ t c, Field.embedded_doc_type f = Some t
         ∧ last (split "." t) = Some c ∧ c ∈ VALID_LABEL_TYPES.
Proof.
  unfold labels. intros [Hf _]%list_elem_of_filter.
  apply Is_true_true, labelFilter_true in Hf as (t & c & Ht & _ & Hfin & Hc).
  exists t, c. split; [done|]. split; [by apply last_split|done].
Qed.

(** X16. labelTypes never throws: every label has an embedded_doc_type.
    It returns one type per label, in the order of labelNames, each the
    final dot-separated component of the label's embedded_doc_type and a
    member of VALID_LABEL_TYPES; labelTuples pairs each label name with
    that type, no type being undefined. *)
Theorem labelTypes_valid (dimension : string) (s : store) :
  ∃ types : list string,
    labelTypes VALID_LABEL_TYPES dimension s = Some (Some <$> types)
    ∧ length types = length (labelNames VALID_LABEL_TYPES dimension s)
    ∧ Forall2 (λ f c, ∃ t, Field.embedded_doc_type f = Some t
                           ∧ final_component "." t c)
              (labels VALID_LABEL_TYPES dimension s) types
    ∧ Forall (λ c, c ∈ VALID_LABEL_TYPES) types
    ∧ labelTuples VALID_LABEL_TYPES dimension s
      = Some (zip (labelNames VALID_LABEL_TYPES dimension s) (Some <$> types)).
Proof.
  unfold labelTuples, labelTypes, labelNames.
  assert (∀ l : list Field.t,
            (∀ f, f ∈ l → ∃ t c, Field.embedded_doc_type f = Some t
                    ∧ last (split "." t) = Some c ∧ c ∈ VALID_LABEL_TYPES) →
            ∃ types : list string,
              mapM (λ l, t ← Field.embedded_doc_type l; Some (last (split "." t))) l
                = Some (Some <$> types)
              ∧ length types = length l
              ∧ Forall2 (λ f c, ∃ t, Field.embedded_doc_type f = Some t
                                     ∧ final_component "." t c) l types
              ∧ Forall (λ c, c ∈ VALID_LABEL_TYPES) types) as Hgen.
  { induction l as [|f l IH]; intros Hl.
    - exists []. repeat split; constructor.
    - destruct (Hl f) as (t & c & Ht & Hlast & Hc); [apply list_elem_of_here|].
      destruct IH as (types & Hm & Hlen & Hf2 & Hall).
      { intros g Hg. apply Hl. by apply list_elem_of_further. }
      exists (c :: types). cbn [mapM]. rewrite Ht. cbn [mbind option_bind].
      rewrite Hlast, Hm. cbn. split; [done|]. split; [by rewrite Hlen|].
      split; [|by constructor]. constructor; [|done].
      exists t. split; [done|]. by apply last_split. }
  destruct (Hgen (labels VALID_LABEL_TYPES dimension s))
    as (types & Hm & Hlen & Hf2 & Hall).
  { intros f. apply labels_typed. }
  exists types. rewrite Hm. cbn [mbind option_bind].
  split; [done|]. split; [by rewrite length_fmap|]. split; [done|].
  split; [done|]. f_equal. apply imap_zip_lookup.
  by rewrite !length_fmap.
Qed.

Lemma reduce_from_insert (l : list Field.t) (pre : list string)
    (m : gmap string (option string)) (n : string) :
  reduce_from (λ acc cur i, <[cur := (pre ++ (Field.ftype <$> l)) !! i]> acc)
              (length pre) m (Field.name <$> l) !! n
  = match last (filter (λ f, Field.name f = n) l) with
    | Some f => Some (Some (Field.ftype f))
    | None => m !! n
    end.
Proof.
  revert pre m. induction l as [|x l IH]; intros pre m; [done|].
  cbn [fmap list_fmap reduce_from]. rewrite list_lookup_middle by done.
  rewrite (cons_middle (Field.ftype x) pre (Field.ftype <$> l)).
  rewrite (app_assoc pre [Field.ftype x] (Field.ftype <$> l)).
  replace (S (length pre)) with (length (pre ++ [Field.ftype x]))
    by (rewrite length_app; cbn; lia).
  rewrite (IH (pre ++ [Field.ftype x])).
  destruct (decide (Field.name x = n)) as [Hx|Hx].
  - rewrite filter_cons_True by done. rewrite last_cons.
    destruct (last _); [done|]. by rewrite Hx, lookup_insert_eq.
  - rewrite filter_cons_False by done.
    destruct (last _); [done|]. by rewrite lookup_insert_ne.
Qed.

Lemma scalarsMap_lookup (dimension : string) (s : store) (n : string) :
  scalarsMap VALID_SCALAR_TYPES dimension s !! n
  = match fields dimension s !! n with
    | Some f => if scalarFilter VALID_SCALAR_TYPES f then Some (Some (Field.ftype f))
                else None
    | None => None
    end.
Proof.
  unfold scalarsMap, scalarTypes, scalarNames.
  rewrite (reduce_from_insert (scalars VALID_SCALAR_TYPES dimension s) [] ∅ n).
  rewrite lookup_empty.
  destruct (last _) as [f|] eqn:Hlast.
  - apply last_Some_elem_of in Hlast.
    apply list_elem_of_filter in Hlast as [Hn Hf].
    unfold scalars in Hf. apply list_elem_of_filter in Hf as [Hsc Hf].
    apply values_elem_of in Hf. rewrite Hn in Hf. rewrite Hf.
    by rewrite (Is_true_true_1 _ Hsc).
  - destruct (fields dimension s !! n) as [f|] eqn:Hf; [|done].
    destruct (scalarFilter VALID_SCALAR_TYPES f) eqn:Hsc; [|done].
    exfalso. apply last_None in Hlast.
    assert (f ∈ filter (λ f, Field.name f = n)
                  (scalars VALID_SCALAR_TYPES dimension s)) as Hin.
    { destruct (fields_lookup_name _ _ _ _ Hf) as [Hn _].
      apply list_elem_of_filter. split; [done|]. unfold scalars.
      apply list_elem_of_filter. split; [by apply Is_true_true|].
      apply values_elem_of. by rewrite Hn. }
    rewrite Hlast in Hin. by apply not_elem_of_nil in Hin.
Qed.

(** X17. isNumericField(name) holds exactly when the sample schema has a
    field of that name whose ftype is both a scalar type and a numeric
    type; the types zipped by index in scalarsMap are the fields' own. *)
Theorem isNumericField_spec (name : string) (s : store) :
  isNumericField VALID_SCALAR_TYPES VALID_NUMERIC_TYPES name s = true
  ↔ ∃ f, fields "sample" s !! name = Some f
         ∧ Field.ftype f ∈ VALID_SCALAR_TYPES
         ∧ Field.ftype f ∈ VALID_NUMERIC_TYPES.
Proof.
  unfold isNumericField. rewrite scalarsMap_lookup. unfold scalarFilter. split.
  - destruct (fields "sample" s !! name) as [f|]; [|done].
    case_bool_decide as Hsc; [|done]. cbn [mjoin option_join].
    intros Hnum%bool_decide_eq_true. by exists f.
  - intros (f & -> & Hsc & Hnum). rewrite (bool_decide_eq_true_2 _ Hsc).
    cbn. by apply bool_decide_eq_true_2.
Qed.

Lemma foldl_copy_if (scalars : list string) (filters : gmap string filter_value)
    (l : list string) (m : gmap string filter_value) (k : string) :
  foldl (λ acc cur,
           if bool_decide (cur ∈ scalars) then
             match filters !! cur with
             | Some v => <[cur := v]> acc
             | None => acc
             end
           else acc) m l !! k
  = if bool_decide (k ∈ l ∧ k ∈ scalars ∧ is_Some (filters !! k))
    then filters !! k else m !! k.
Proof.
  induction l as [|x l IH] using rev_ind.
  - cbn. rewrite bool_decide_eq_false_2; [done|].
    intros [[]%not_elem_of_nil _].
  - assert (∀ k', k' ∈ l ++ [x] ↔ k' ∈ l ∨ k' = x) as Hsnoc.
    { intros k'. rewrite elem_of_app, list_elem_of_singleton. done. }
    set (step := λ (acc : gmap string filter_value) (cur : string),
           if bool_decide (cur ∈ scalars) then
             match filters !! cur with
             | Some v => <[cur := v]> acc
             | None => acc
             end
           else acc) in *.
    rewrite foldl_app.
    change (foldl step (foldl step m l) [x]) with (step (foldl step m l) x).
    assert (step (foldl step m l) x !! k
            = if bool_decide (k = x ∧ k ∈ scalars ∧ is_Some (filters !! k))
              then filters !! k else foldl step m l !! k) as ->.
    { unfold step at 1. destruct (decide (k = x)) as [->|Hne].
      - destruct (decide (x ∈ scalars)) as [Hx|Hx].
        + rewrite (bool_decide_eq_true_2 _ Hx).
          destruct (filters !! x) as [v|] eqn:Hv.
          * rewrite lookup_insert_eq. rewrite bool_decide_eq_true_2; [done|].
            split; [done|]. split; [done|by eexists].
          * rewrite bool_decide_eq_false_2; [done|].
            by intros (_ & _ & [? ?]).
        + rewrite (bool_decide_eq_false_2 _ Hx).
          rewrite bool_decide_eq_false_2; [done|]. by intros (_ & ? & _).
      - rewrite (bool_decide_eq_false_2 (k = x ∧ _)); [|by intros [? _]].
        destruct (bool_decide (x ∈ scalars)); [|done].
        destruct (filters !! x); [|done]. by rewrite lookup_insert_ne. }
    rewrite IH.
    destruct (decide (k = x ∧ k ∈ scalars ∧ is_Some (filters !! k))) as [Hk|Hk].
    + rewrite (bool_decide_eq_true_2 _ Hk). rewrite bool_decide_eq_true_2; [done|].
      destruct Hk as (-> & ? & ?). split; [apply Hsnoc; by right|done].
    + rewrite (bool_decide_eq_false_2 _ Hk).
      apply (f_equal (λ b : bool, if b then _ else _)).
      apply bool_decide_ext. rewrite Hsnoc. tauto.
Qed.

(** X18. paginatedFilterStages is the part of filterStages whose paths
    are scalar fields of the sample schema: it holds under such a path
    what filterStages holds, and nothing under any other path. It throws
    when the state holds no filters object. *)
Theorem paginatedFilterStages_restricts (s : store) :
  (∀ filters, filterStages.get s = Some filters →
     ∃ paginated,
       paginatedFilterStages VALID_SCALAR_TYPES s = Some paginated
       ∧ ∀ k, paginated !! k
              = if bool_decide (k ∈ scalarNames VALID_SCALAR_TYPES "sample" s)
                then filters !! k else None)
  ∧ (filterStages.get s = None →
     paginatedFilterStages VALID_SCALAR_TYPES s = None).
Proof.
  split.
  - intros filters Hf. unfold paginatedFilterStages. rewrite Hf.
    cbn [mbind option_bind]. eexists. split; [reflexivity|]. intros k.
    rewrite foldl_copy_if, lookup_empty.
    case_bool_decide as Hin; case_bool_decide as Hsc; try done.
    + by destruct Hin as (_ & ? & _).
    + destruct (filters !! k) as [v|] eqn:Hv; [|done].
      exfalso. apply Hin. split; [|split; [done|by eexists]].
      apply Object_keys_elem_of. by eexists.
  - intros Hf. unfold paginatedFilterStages. by rewrite Hf.
Qed.
End derived_lists.

Lemma isNumericField_spec_witness :
  Selectors.isNumericField Examples.scalar_types
    ["fiftyone.core.fields.FloatField"; "fiftyone.core.fields.IntField"]
    "uniqueness" (Examples.store None ∅) = true.
Proof.
  apply (proj2 (isNumericField_spec Examples.scalar_types
                  ["fiftyone.core.fields.FloatField"; "fiftyone.core.fields.IntField"]
                  "uniqueness" (Examples.store None ∅))).
  exists Examples.uniqueness.
  split; [vm_compute; reflexivity|].
  split; apply list_elem_of_here.
Defined.

Lemma paginatedFilterStages_restricts_witness :
  ∃ paginated,
    Selectors.paginatedFilterStages Examples.scalar_types (Examples.store None ∅)
    = Some paginated.
Proof.
  destruct (proj1 (paginatedFilterStages_restricts Examples.scalar_types
                     (Examples.store None ∅)) ∅ eq_refl)
    as (paginated & Hp & _).
  exists paginated. exact Hp.
Defined.

Lemma filterStage_set_effect_witness :
  Selectors.filterStage.get "uniqueness"
    (Selectors.filterStage.set "ground_truth"
       (Selectors.FObj (Examples.only_labels ["cat"])) (Examples.store None ∅))
  = Selectors.filterStage.get "uniqueness" (Examples.store None ∅).
Proof.
  apply (proj1 (proj2 (filterStage_set_effect "ground_truth"
                         (Selectors.FObj (Examples.only_labels ["cat"]))
                         (Examples.store None ∅)))).
  discriminate.
Defined.

Section state_setters.
Import Selectors.

Lemma Object_keys_length_0 {A} (m : gmap string A) :
  length (Object_keys m) = 0%nat ↔ m = ∅.
Proof.
  unfold Object_keys. rewrite length_fmap, length_zero_iff_nil.
  apply map_to_list_empty_iff.
Qed.

(** X19. Setting the view stores the stages, so that reading the view
    gives them back, and leaves the filters and the statistics alone; it
    marks the dataset statistics as loading, marks the extended
    statistics as loading only when some filter is stored, and sends one
    update message that carries the state description it stored. It
    throws when the state holds no filters object. *)
Theorem view_set_get (stages : list string) (s : store) :
  (∀ fs, filterStages.get s = Some fs →
     ∃ s', view.set stages s = Some s'
           ∧ view.get s' = stages
           ∧ filterStages.get s' = Some fs
           ∧ sent s' = sent s
                       ++ [packageMessage "update" (StateArgs (stateDescription s'))]
           ∧ datasetStatsLoading s' = true
           ∧ extendedDatasetStatsLoading s'
             = (if decide (fs = ∅) then extendedDatasetStatsLoading s else true)
           ∧ datasetStats s' = datasetStats s
           ∧ extendedDatasetStats s' = extendedDatasetStats s)
  ∧ (filterStages.get s = None → view.set stages s = None).
Proof.
  unfold filterStages.get, view.set, view.get. split.
  - intros fs ->. cbn [mbind option_bind]. eexists. split; [reflexivity|].
    cbn. repeat split.
    destruct (decide (fs = ∅)) as [Hfs|Hfs].
    + rewrite bool_decide_eq_false_2; [done|].
      intros Hne. by apply Hne, Object_keys_length_0.
    + rewrite bool_decide_eq_true_2; [done|].
      intros Hlen. by apply Hfs, Object_keys_length_0.
  - by intros ->.
Qed.

(** X20. resolveFilter returns null exactly when the range equals the
    bounds, the none flag is true and no label is listed. In every other
    case it returns an object with at least one property: range is
    present exactly when the range differs from the bounds, none exactly
    when the range differs or the flag is false, labels exactly when the
    list is non-empty. The final emptiness test never yields null. *)
Theorem resolveFilter_normal_form (bounds range : bound * bound) (none : bool)
    (labels : option (list string)) :
  match resolveFilter bounds range none labels with
  | FNull => range = bounds ∧ none = true ∧ default [] labels = []
  | FObj f =>
      ¬ (range = bounds ∧ none = true ∧ default [] labels = [])
      ∧ Filter.range f = (if decide (range = bounds) then None else Some range)
      ∧ Filter.none f
        = (if decide (range = bounds ∧ none = true) then None else Some none)
      ∧ Filter.labels f = (if decide (default [] labels = []) then None else labels)
      ∧ (0 < Filter.size f)%nat
  end.
Proof.
  unfold resolveFilter.
  assert (bool_decide (range.1 = bounds.1) && bool_decide (range.2 = bounds.2)
          = bool_decide (range = bounds)) as ->.
  { destruct range as [r0 r1], bounds as [b0 b1]. cbn [fst snd].
    destruct (decide (r0 = b0)) as [->|H0], (decide (r1 = b1)) as [->|H1];
      rewrite ?bool_decide_eq_true_2 by done;
      rewrite ?(bool_decide_eq_false_2 (r0 = b0)) by done;
      rewrite ?(bool_decide_eq_false_2 (r1 = b1)) by done;
      cbn [andb]; symmetry;
      solve [ reflexivity
            | apply bool_decide_eq_false_2; congruence ]. }
  destruct (decide (range = bounds)) as [Hr|Hr];
    [rewrite (bool_decide_eq_true_2 _ Hr) | rewrite (bool_decide_eq_false_2 _ Hr)];
    destruct none, labels as [[|l ls]|]; cbn [length negb andb];
    rewrite ?(bool_decide_eq_true_2 (0 < S _)%nat) by lia;
    rewrite ?(bool_decide_eq_false_2 (0 < 0)%nat) by lia;
    cbn [negb andb Filter.size Filter.range Filter.none Filter.labels
         Filter.empty Nat.add];
    rewrite ?(bool_decide_eq_true_2 (0 < S _)%nat) by lia;
    cbn [default from_option id Filter.range Filter.none Filter.labels];
    repeat case_decide; intuition (try discriminate; try lia; try congruence).
Qed.
End state_setters.

Lemma view_set_get_witness :
  ∃ s', Selectors.view.set ["Limit"] (Examples.store None ∅) = Some s'
        ∧ Selectors.view.get s' = ["Limit"].
Proof.
  destruct (proj1 (view_set_get ["Limit"] (Examples.store None ∅)) ∅ eq_refl)
    as (s' & Hset & Hget & _).
  exists s'. split; [exact Hset | exact Hget].
Defined.
